(** * The task-dependency registry of [executor/task_graph.py]

    A shallow embedding of the payload codec ([serialize], [deserialize]),
    of [Task] and of [TaskGraph], followed by the properties of the
    registry: codec round trip, execution through the codec, lookup
    failures, dependency bookkeeping, sources and sinks, and what
    re-registering a name does to the two maps. *)

From Stdlib Require Import NArith List String Ascii Bool Lia.
From Stdlib.Strings Require Import Byte.
From stdpp Require Import base decidable option list strings gmap sets.
From stdpp Require Import pretty relations.

Local Open Scope string_scope.
Local Open Scope list_scope.

(** ** Object identity, exceptions and results *)

(** [Task] objects are compared and hashed by identity.  A [ref] is the
    identity of an object. *)
Definition ref : Type := nat.

(** Python code either returns a value or raises.  The exceptions that the
    modelled code can raise itself are listed; [Raised] stands for whatever
    a user function raises.  A [KeyError] carries the missing key. *)

Inductive pykey : Type :=
  | KeyStr (s : string)
  | KeyObj (addr : ref).

Inductive exn : Type :=
  | KeyError (k : pykey)
  | ValueError (msg : string)
  | TypeError (msg : string)
  | BinasciiError (msg : string)
  | UnicodeDecodeError
  | PickleError (msg : string)
  | Raised (what : string).

Inductive result (A : Type) : Type :=
  | Ok (a : A)
  | Err (e : exn).

Arguments Ok {A} a.
Arguments Err {A} e.

Definition bind {A B} (r : result A) (k : A → result B) : result B :=
  match r with
  | Ok a => k a
  | Err e => Err e
  end.

Notation "'let!' x ':=' r 'in' k" := (bind r (fun x => k))
  (at level 10, x name, r at level 100, k at level 200,
   format "'[' 'let!'  x  :=  r  'in' '/' k ']'").

(** [[f(x) for x in xs]]: elements are evaluated left to right and the
    first exception aborts the comprehension. *)
Fixpoint list_comp {A B} (f : A → result B) (xs : list A) : result (list B) :=
  match xs with
  | [] => Ok []
  | x :: xs' =>
      let! y := f x in
      let! ys := list_comp f xs' in
      Ok (y :: ys)
  end.

(** A byte that is an ASCII character. *)
Definition is_ascii (b : byte) : bool := (Byte.to_N b <? 128)%N.

(** ** Base64, as [base64.b64encode] and [base64.b64decode] use it

    [b64encode(s)] is [binascii.b2a_base64(s, newline=False)] and
    [b64decode(s)] (with the default [validate=False]) is
    [binascii.a2b_base64] on the ASCII bytes of [s]. *)

Module Base64.

Local Open Scope N_scope.

Definition alphabet : list byte :=
  list_byte_of_string
    "ABCDEFGHIJKLMNOPQRSTUVWXYZabcdefghijklmnopqrstuvwxyz0123456789+/".

Definition BASE64_PAD : byte := "="%byte.

(** [table_b2a_base64[i]] for a 6-bit [i]. *)
Definition table_b2a (i : N) : byte := nth (N.to_nat i) alphabet BASE64_PAD.

(** [table_a2b_base64[c]]: the 6-bit value of an alphabet character, and
    a value above 63 for every other byte. *)
Definition table_a2b (c : byte) : N :=
  let n := Byte.to_N c in
  if (65 <=? n) && (n <=? 90) then n - 65
  else if (97 <=? n) && (n <=? 122) then n - 71
  else if (48 <=? n) && (n <=? 57) then n + 4
  else if n =? 43 then 62
  else if n =? 47 then 63
  else 255.

(** Storing an [unsigned int] expression into an [unsigned char]. *)
Definition to_uchar (n : N) : byte :=
  match Byte.of_N (N.land n 255) with
  | Some b => b
  | None => x00
  end.

Definition sextet1 (a : byte) : N := N.shiftr (Byte.to_N a) 2.
Definition sextet2 (a b : byte) : N :=
  N.lor (N.shiftl (N.land (Byte.to_N a) 3) 4) (N.shiftr (Byte.to_N b) 4).
Definition sextet3 (b c : byte) : N :=
  N.lor (N.shiftl (N.land (Byte.to_N b) 15) 2) (N.shiftr (Byte.to_N c) 6).
Definition sextet4 (c : byte) : N := N.land (Byte.to_N c) 63.

(** Every three input bytes give four characters; one or two bytes left
    at the end give two or three characters and the padding. *)
Fixpoint b2a_base64 (data : list byte) : list byte :=
  match data with
  | a :: b :: c :: rest =>
      table_b2a (sextet1 a) :: table_b2a (sextet2 a b)
      :: table_b2a (sextet3 b c) :: table_b2a (sextet4 c)
      :: b2a_base64 rest
  | [a; b] =>
      [table_b2a (sextet1 a); table_b2a (sextet2 a b);
       table_b2a (N.shiftl (N.land (Byte.to_N b) 15) 2); BASE64_PAD]
  | [a] =>
      [table_b2a (sextet1 a);
       table_b2a (N.shiftl (N.land (Byte.to_N a) 3) 4);
       BASE64_PAD; BASE64_PAD]
  | [] => []
  end.

(** The decoder's loop state: position in the current quad, the bits
    left over from the previous character, the run of padding
    characters, and the output so far. *)
Record a2b_state := A2B {
  quad_pos : nat;
  leftchar : N;
  pads : nat;
  bin_data : list byte
}.

Inductive a2b_step_result :=
  | Continue (st : a2b_state)
  | Done (out : list byte).

(** One iteration of the loop of [a2b_base64] in non-strict mode. *)
Definition a2b_step (st : a2b_state) (this_ch : byte) : a2b_step_result :=
  if Byte.eqb this_ch BASE64_PAD then
    if (2 <=? quad_pos st)%nat then
      if (4 <=? quad_pos st + S (pads st))%nat then Done (bin_data st)
      else
        Continue (A2B (quad_pos st) (leftchar st) (S (pads st)) (bin_data st))
    else Continue st
  else
    let v := table_a2b this_ch in
    if (64 <=? v)%N then Continue st
    else
      match quad_pos st with
      | 0%nat => Continue (A2B 1 v 0 (bin_data st))
      | 1%nat =>
          Continue (A2B 2 (N.land v 15) 0
            (bin_data st ++
             [to_uchar (N.lor (N.shiftl (leftchar st) 2) (N.shiftr v 4))]))
      | 2%nat =>
          Continue (A2B 3 (N.land v 3) 0
            (bin_data st ++
             [to_uchar (N.lor (N.shiftl (leftchar st) 4) (N.shiftr v 2))]))
      | _ =>
          Continue (A2B 0 0 0
            (bin_data st ++ [to_uchar (N.lor (N.shiftl (leftchar st) 6) v)]))
      end.

Fixpoint a2b_loop (st : a2b_state) (ascii_data : list byte)
  : result (list byte) :=
  match ascii_data with
  | [] =>
      match quad_pos st with
      | 0%nat => Ok (bin_data st)
      | 1%nat =>
          Err (BinasciiError
                 ("Invalid base64-encoded string: number of data characters ("
                  +:+ pretty (N.of_nat (length (bin_data st)) / 3 * 4 + 1)
                  +:+ ") cannot be 1 more than a multiple of 4"))
      | _ => Err (BinasciiError "Incorrect padding")
      end
  | ch :: rest =>
      match a2b_step st ch with
      | Continue st' => a2b_loop st' rest
      | Done out => Ok out
      end
  end.

Definition a2b_base64 (ascii_data : list byte) : result (list byte) :=
  a2b_loop (A2B 0 0 0 []) ascii_data.

Definition b64encode (s : list byte) : list byte := b2a_base64 s.

(** A [str] argument is first encoded as ASCII, which raises
    [ValueError] when a character is outside ASCII. *)
Definition bytes_from_decode_data (s : string) : result (list byte) :=
  let bs := list_byte_of_string s in
  if forallb is_ascii bs then Ok bs
  else Err (ValueError "string argument should contain only ASCII characters").

Definition b64decode (s : string) : result (list byte) :=
  let! bs := bytes_from_decode_data s in a2b_base64 bs.

(** The 256 bytes, and the check that a 6-bit value survives the two
    tables; both are used to establish facts about the tables by running
    them. *)
Definition all_bytes : list byte :=
  omap (fun n => Byte.of_N (N.of_nat n)) (seq 0 256).

Definition char_ok (v : N) : bool :=
  negb (Byte.eqb (table_b2a v) BASE64_PAD)
  && (table_a2b (table_b2a v) =? v) && (v <? 64).

End Base64.

(** [bytes.decode("utf-8")]: a byte below 128 is the character with that
    code.  Multi-byte sequences denote characters that [string] cannot
    hold; the model covers the one-byte subset, which is all that
    [b64encode] produces, and reports anything else as a decoding error. *)
Definition decode_utf8 (bs : list byte) : result string :=
  if forallb is_ascii bs
  then Ok (string_of_list_byte bs)
  else Err UnicodeDecodeError.

(** ** Python dictionaries

    A [dict] keeps its keys in insertion order: [d[k] = v] overwrites the
    value of a key that is present without moving it, and appends a key
    that is not.  Keys are compared with the key type's equality (for
    [Task] objects, which define neither [__eq__] nor [__hash__], that is
    object identity, see [ref]). *)

Definition dict (K V : Type) : Type := list (K * V).

Section Dict.

Context {K V : Type} `{EqDecision K}.

Fixpoint dict_get (k : K) (d : dict K V) : option V :=
  match d with
  | [] => None
  | (k', v) :: d' => if decide (k = k') then Some v else dict_get k d'
  end.

(** [d[k] = v] *)
Fixpoint dict_set (k : K) (v : V) (d : dict K V) : dict K V :=
  match d with
  | [] => [(k, v)]
  | (k', v') :: d' =>
      if decide (k = k') then (k, v) :: d' else (k', v') :: dict_set k v d'
  end.

Definition dict_keys (d : dict K V) : list K := fst <$> d.

Definition dict_items (d : dict K V) : list (K * V) := d.

(** [d[k]] raises [KeyError(k)] for a missing key. *)
Definition getitem (repr : K → pykey) (k : K) (d : dict K V) : result V :=
  match dict_get k d with
  | Some v => Ok v
  | None => Err (KeyError (repr k))
  end.

(** [{k: v for ...}] stores the pairs one after the other into a new
    dictionary. *)
Definition dict_of_items (items : list (K * V)) : dict K V :=
  fold_left (fun d kv => dict_set kv.1 kv.2 d) items [].

(** What storing under [k] does to the sequence of keys. *)
Definition keys_add (ks : list K) (k : K) : list K :=
  if decide (k ∈ ks) then ks else ks ++ [k].

End Dict.

(** ** The payload codec, [Task] and [TaskGraph]

    [value] is the type of the Python values that tasks exchange.  [pickle]
    is an external library: [pickle_dumps] and [pickle_loads] stand for
    [pickle.dumps] and [pickle.loads], both of which can raise. *)

(** [networkx.DiGraph], as far as [to_networkx] uses it: the set of nodes
    and the set of directed edges.  [add_edge(u, v)] adds the edge and both
    of its end points. *)
Record DiGraph := {
  nodes : gset string;
  edges : gset (string * string)
}.

Definition DiGraph_init : DiGraph := {| nodes := ∅; edges := ∅ |}.

Definition add_edge (u v : string) (g : DiGraph) : DiGraph :=
  {| nodes := {[u; v]} ∪ nodes g; edges := {[(u, v)]} ∪ edges g |}.

(** The nodes of [g] are the end points of its edges. *)
Definition endpoints_only (g : DiGraph) : Prop :=
  ∀ n, n ∈ nodes g ↔ ∃ u v, (u, v) ∈ edges g ∧ (n = u ∨ n = v).

Class Pickle (value : Type) := {
  pickle_dumps : value → result (list byte);
  pickle_loads : list byte → result value
}.

Section Registry.

Context {value : Type} `{!Pickle value}.

(** [deserialize(text) = pickle.loads(b64decode(text))] *)
Definition deserialize (text : string) : result value :=
  let! raw := Base64.b64decode text in
  pickle_loads raw.

(** [serialize(obj) = b64encode(pickle.dumps(obj)).decode("utf-8")] *)
Definition serialize (obj : value) : result string :=
  let! raw := pickle_dumps obj in
  decode_utf8 (Base64.b64encode raw).

(** The values that [pickle] supports: [dumps] accepts them and [loads]
    gives them back. *)
Definition picklable (v : value) : Prop :=
  ∃ raw, pickle_dumps v = Ok raw ∧ pickle_loads raw = Ok v.

(** A user function: its [__name__] and what calling it with positional
    and keyword arguments returns or raises. *)
Record PyFunction := {
  fn_name : string;
  fn_call : list value → dict string value → result value
}.

(** [class Task]: the attributes [name] and [call].  The callables that
    the registry stores take and return encoded payloads. *)
Record Task := mkTask {
  name : string;
  call : list string → dict string string → result string
}.

(** Binding the keywords of a call to a method whose named parameters
    are [params] and already have their positional values: the first
    keyword called like one of them raises [TypeError].  [fname] is the
    qualified name of the method, as CPython 3.10 and later print it. *)
Fixpoint bind_keywords (fname : string) (params : list string)
    (kwargs : list (string * string)) : result unit :=
  match kwargs with
  | [] => Ok tt
  | (key, _) :: rest =>
      if decide (key ∈ params)
      then Err (TypeError
                  (fname +:+ "() got multiple values for argument '"
                   +:+ key +:+ "'"))
      else bind_keywords fname params rest
  end.

(** [Task.__call__(self, *args, **kwds)] *)
Definition Task_call (self : Task) (args : list string)
    (kwds : dict string string) : result string :=
  let! bound := bind_keywords "Task.__call__" ["self"] (dict_items kwds) in
  call self args kwds.

(** The heap gives the object behind each identity, and [brk] is the
    first identity not yet in use. *)
Record Heap := {
  obj : ref → Task;
  brk : ref
}.

Definition allocated (h : Heap) (t : ref) : Prop := t < brk h.

(** [Task(name, call)]: a new object, different from all existing ones. *)
Definition new_Task (o : Task) (h : Heap) : ref * Heap :=
  (brk h,
   {| obj := fun r => if decide (r = brk h) then o else obj h r;
      brk := S (brk h) |}).

(** [class TaskGraph] *)
Record TaskGraph := {
  task_deps : dict ref (list ref);
  task_names : dict string ref
}.

(** [TaskGraph.__init__] *)
Definition TaskGraph_init : TaskGraph :=
  {| task_deps := []; task_names := [] |}.

(** The interpreter state that the methods see: the heap and the graph
    object [self]. *)
Record World := {
  heap : Heap;
  self : TaskGraph
}.

Definition name_of (w : World) (t : ref) : string := name (obj (heap w) t).

(** [TaskGraph.execute(self, name, *args, **kwargs)] *)
Definition execute (w : World) (name : string) (args : list string)
    (kwargs : dict string string) : result string :=
  let! bound :=
    bind_keywords "TaskGraph.execute" ["self"; "name"] (dict_items kwargs) in
  let! task := getitem KeyStr name (task_names (self w)) in
  Task_call (obj (heap w) task) args kwargs.

(** [TaskGraph.dependencies] *)
Definition dependencies (w : World) (name : string) : result (list string) :=
  let! task := getitem KeyStr name (task_names (self w)) in
  let! deps := getitem KeyObj task (task_deps (self w)) in
  list_comp (fun task => Ok (name_of w task)) deps.

(** The closure [_fun] of [add_task]: decode the positional arguments,
    then the keyword arguments, call [fun], encode what it returns. *)
Definition _fun (fn : PyFunction) (args : list string)
    (kwargs : dict string string) : result string :=
  let! args := list_comp deserialize args in
  let! kwargs :=
    (let! items :=
       list_comp (fun kv => let! v := deserialize kv.2 in Ok (kv.1, v))
                 (dict_items kwargs) in
     Ok (dict_of_items items)) in
  let! ret := fn_call fn args kwargs in
  serialize ret.

(** [TaskGraph.add_task]; returns the new [Task]. *)
Definition add_task (fn : PyFunction) (deps : list ref) (w : World)
    : ref * World :=
  let '(task, h) := new_Task (mkTask (fn_name fn) (_fun fn)) (heap w) in
  (task,
   {| heap := h;
      self :=
        {| task_deps := dict_set task deps (task_deps (self w));
           task_names := dict_set (name (obj h task)) task
                           (task_names (self w)) |} |}).

(** [TaskGraph.task]: the decorator form of [add_task]. *)
Definition task (deps : list ref) : PyFunction → World → ref * World :=
  fun fn => add_task fn deps.

Definition start_tasks_from (w : World) :=
  fix go (items : list (string * ref)) : result (list string) :=
    match items with
    | [] => Ok []
    | (task_name, task) :: rest =>
        let! deps := getitem KeyObj task (task_deps (self w)) in
        let! names := go rest in
        Ok (match deps with [] => task_name :: names | _ => names end)
    end.

(** [TaskGraph.start_tasks] *)
Definition start_tasks (w : World) : result (list string) :=
  start_tasks_from w (dict_items (task_names (self w))).

Definition source_tasks_from (w : World) :=
  fix go (items : list (string * ref)) : result (gset string) :=
    match items with
    | [] => Ok ∅
    | (_, task) :: rest =>
        let! deps := getitem KeyObj task (task_deps (self w)) in
        let! names := go rest in
        Ok (list_to_set (name_of w <$> deps) ∪ names)
    end.

(** [TaskGraph.end_tasks].  Python fixes no order for the elements of a
    set; [elements] picks one. *)
Definition end_tasks (w : World) : result (list string) :=
  let! source_tasks :=
    source_tasks_from w (dict_items (task_names (self w))) in
  Ok (elements (list_to_set (dict_keys (task_names (self w)))
                ∖ source_tasks)).

(** [TaskGraph.summary] *)
Definition summary (w : World) : dict string (list string) :=
  dict_of_items
    ((fun item : ref * list ref =>
        let '(task, deps) := item in (name_of w task, name_of w <$> deps))
       <$> dict_items (task_deps (self w))).

(** [TaskGraph.__str__] *)
Definition TaskGraph_str (w : World) : string :=
  String.concat (String (ascii_of_byte x0a) EmptyString)
    ((fun item : ref * list ref =>
        let '(task, deps) := item in
        name_of w task +:+ " <- [" +:+
        String.concat ", " (name_of w <$> deps) +:+ "]")
       <$> dict_items (task_deps (self w))).

(** [TaskGraph.to_networkx]: one edge from the name of each dependency to
    the name of the task, for every entry of [task_deps]. *)
Definition to_networkx (w : World) : DiGraph :=
  fold_left
    (fun (graph : DiGraph) (item : ref * list ref) =>
       let '(task, deps) := item in
       fold_left
         (fun (graph : DiGraph) (dep : ref) =>
            add_edge (name_of w dep) (name_of w task) graph)
         deps graph)
    (dict_items (task_deps (self w))) DiGraph_init.

(** *** Vocabulary of the properties *)

(** The name [n] is bound to a [Task] that [add_task] made for [fn]. *)
Definition wraps (w : World) (n : string) (fn : PyFunction) : Prop :=
  ∃ t, dict_get n (task_names (self w)) = Some t
       ∧ obj (heap w) t = mkTask n (_fun fn).

(** The worlds that a program reaches from a new [TaskGraph()]: it may
    construct [Task] objects of its own and call [add_task] with
    functions and with handles of existing [Task] objects. *)
Inductive reachable : World → Prop :=
  | reachable_init (h : Heap) :
      reachable {| heap := h; self := TaskGraph_init |}
  | reachable_new_Task (w : World) (o : Task) :
      reachable w →
      reachable {| heap := (new_Task o (heap w)).2; self := self w |}
  | reachable_add_task (w : World) (fn : PyFunction) (deps : list ref) :
      reachable w →
      Forall (allocated (heap w)) deps →
      reachable (add_task fn deps w).2.

(** The pairs that the registrations stored into [task_names], oldest
    first: one per key of [task_deps]. *)
Definition name_entries (w : World) : list (string * ref) :=
  (fun item : ref * list ref => (name_of w item.1, item.1))
    <$> task_deps (self w).

Record graph_inv (w : World) : Prop := {
  inv_allocated :
    Forall (allocated (heap w)) (dict_keys (task_deps (self w)));
  inv_NoDup : NoDup (dict_keys (task_deps (self w)));
  inv_names : task_names (self w) = dict_of_items (name_entries w)
}.

(** The two maps are in sync when every key of [task_deps] is the entry
    of [task_names] under its own name. *)
Definition in_sync (w : World) : Prop :=
  ∀ t, t ∈ dict_keys (task_deps (self w)) →
       dict_get (name_of w t) (task_names (self w)) = Some t.

(** [n] is bound to [t] in the name map; [deps] is what [task_deps]
    holds for [t]. *)
Definition registered (w : World) (n : string) (t : ref) : Prop :=
  dict_get n (task_names (self w)) = Some t.

Definition declared (w : World) (t : ref) (deps : list ref) : Prop :=
  dict_get t (task_deps (self w)) = Some deps.

Definition names_of (w : World) (deps : list ref) : list string :=
  name_of w <$> deps.

(** [n] is the name of a dependency in the list of a [Task] that
    [task_names] holds.  The lists of Tasks that are keys of [task_deps]
    only (shadowed by a later registration of their name) do not count. *)
Definition dependency_name_of_bound_task (w : World) (n : string) : Prop :=
  ∃ n' t deps d,
    registered w n' t ∧ declared w t deps ∧ d ∈ deps ∧ name_of w d = n.

(** [d] is in the dependency list that [task_deps] holds for [t]. *)
Definition depends_on (w : World) (d t : ref) : Prop :=
  ∃ deps, declared w t deps ∧ d ∈ deps.

(** Every dependency in [task_deps] is itself a key of [task_deps]. *)
Definition closed (w : World) : Prop :=
  ∀ d t, depends_on w d t → d ∈ dict_keys (task_deps (self w)).

(** What [to_networkx] does for one entry of [task_deps]. *)
Definition export_step (w : World) (graph : DiGraph)
    (item : ref * list ref) : DiGraph :=
  let '(task, deps) := item in
  fold_left
    (fun (graph : DiGraph) (dep : ref) =>
       add_edge (name_of w dep) (name_of w task) graph)
    deps graph.

(** One line of [__str__]. *)
Definition str_line (w : World) (item : ref * list ref) : string :=
  let '(task, deps) := item in
  name_of w task +:+ " <- [" +:+
  String.concat ", " (name_of w <$> deps) +:+ "]".

(** Keyword arguments that [execute] can take: none of them is called
    like one of its own parameters. *)
Definition bindable (kwargs : dict string string) : Prop :=
  ("self" ∉ dict_keys kwargs) ∧ ("name" ∉ dict_keys kwargs).

(** For a name that is not registered, every call of [execute] and of
    [dependencies] raises [KeyError] for the name. *)
Definition unknown_name_always_raises_KeyError (w : World) : Prop :=
  ∀ (n : string) (args : list string) (kwargs : dict string string),
    n ∉ dict_keys (task_names (self w)) →
    execute w n args kwargs = Err (KeyError (KeyStr n))
    ∧ dependencies w n = Err (KeyError (KeyStr n)).

(** *** Statements over every registered [Task]

    A [Task] stays a key of [task_deps] for ever, also when a later
    registration takes over its name.  The statements below speak of
    every key of [task_deps]; they are compared with what the methods do,
    which look tasks up through [task_names]. *)

(** [execute] under the name of a [Task] runs the function that this
    [Task] wraps. *)
Definition execute_runs_every_task (w : World) : Prop :=
  ∀ (t : ref) (n : string) (fn : PyFunction)
    (args : list string) (kwargs : dict string string)
    (vs : list value) (kvs : dict string value) (r : value),
    t ∈ dict_keys (task_deps (self w)) →
    obj (heap w) t = mkTask n (_fun fn) →
    Forall2 (fun a v => deserialize a = Ok v) args vs →
    NoDup (dict_keys kwargs) →
    bindable kwargs →
    Forall2 (fun ka kv => ka.1 = kv.1 ∧ deserialize ka.2 = Ok kv.2)
            kwargs kvs →
    fn_call fn vs kvs = Ok r →
    picklable r →
    ∃ text, execute w n args kwargs = Ok text ∧ deserialize text = Ok r.

(** [start_tasks] returns the names of all Tasks with an empty list. *)
Definition start_tasks_lists_every_source (w : World) : Prop :=
  ∃ l, start_tasks w = Ok l
       ∧ ∀ n, n ∈ l ↔ ∃ t, t ∈ dict_keys (task_deps (self w))
                           ∧ name_of w t = n ∧ declared w t [].

(** [n] is the name of a dependency in the list of some key of
    [task_deps]. *)
Definition listed_as_dependency (w : World) (n : string) : Prop :=
  ∃ d t, depends_on w d t ∧ name_of w d = n.

(** [end_tasks] returns the registered names that are in no list at
    all. *)
Definition end_tasks_excludes_every_dependency (w : World) : Prop :=
  ∃ l, end_tasks w = Ok l
       ∧ ∀ n, n ∈ l ↔ n ∈ dict_keys (task_names (self w))
                      ∧ ¬ listed_as_dependency w n.

(** [summary] has one entry per Task, and the list of every Task is found
    under the name of the Task. *)
Definition summary_dumps_every_task (w : World) : Prop :=
  length (summary w) = length (task_deps (self w))
  ∧ ∀ t deps, declared w t deps →
              dict_get (name_of w t) (summary w) = Some (names_of w deps).

(** A Task with an empty list whose name is in no list of another Task. *)
Definition isolated (w : World) (t : ref) : Prop :=
  declared w t []
  ∧ ∀ d t', depends_on w d t' → t' ≠ t → name_of w d ≠ name_of w t.

(** The name of every isolated Task is returned by [start_tasks] and by
    [end_tasks]. *)
Definition isolated_tasks_start_and_end (w : World) : Prop :=
  ∀ t, isolated w t →
       ∃ starts ends,
         start_tasks w = Ok starts ∧ end_tasks w = Ok ends
         ∧ name_of w t ∈ starts ∧ name_of w t ∈ ends.

End Registry.

Arguments Build_PyFunction {value} fn_name fn_call.
Arguments fn_name {value} p.
Arguments fn_call {value} p args kwargs.

(** ** A small instance

    A miniature [pickle] over the integers: the protocol-4 encoding of an
    integer between 0 and 255 ([PROTO 4], [BININT1 n], [STOP]).  It is used
    to run the registry on the scenario of the specification. *)

Module Mini.

Local Open Scope N_scope.

(** [count] bytes of [n], least significant first. *)
Fixpoint le_bytes (count : nat) (n : N) : list byte :=
  match count with
  | O => []
  | S count' => Base64.to_uchar n :: le_bytes count' (n / 256)
  end.

Fixpoint le_value (bs : list byte) : N :=
  match bs with
  | [] => 0
  | b :: bs' => Byte.to_N b + 256 * le_value bs'
  end.

(** [pickle.encode_long] for an integer that is not negative: no byte
    for 0, and otherwise [(bit_length >> 3) + 1] bytes. *)
Definition encode_long (n : N) : list byte :=
  if n =? 0 then [] else le_bytes (N.to_nat (N.size n / 8 + 1)) n.

(** [save_long] with a binary protocol: [BININT1], [BININT2], [BININT],
    and [LONG1] or [LONG4] for the integers beyond 32 bits. *)
Definition save_long (n : N) : list byte :=
  if n <=? 255 then x4b :: le_bytes 1 n
  else if n <=? 65535 then x4d :: le_bytes 2 n
  else if n <=? 2147483647 then x4a :: le_bytes 4 n
  else
    let encoded := encode_long n in
    let len := N.of_nat (length encoded) in
    if len <? 256 then x8a :: le_bytes 1 len ++ encoded
    else x8b :: le_bytes 4 len ++ encoded.

(** Protocol 4 wraps what follows [PROTO] into a [FRAME] when it has four
    bytes or more. *)
Definition commit_frame (data : list byte) : list byte :=
  if (4 <=? length data)%nat
  then x95 :: le_bytes 8 (N.of_nat (length data)) ++ data
  else data.

(** [pickle.dumps(n)] with protocol 4: [PROTO 4], the integer, [STOP]. *)
Definition dumps (n : N) : result (list byte) :=
  Ok (x80 :: x04 :: commit_frame (save_long n ++ [x2e])).

Definition not_an_integer : exn :=
  PickleError "not the pickle of a non-negative integer".

(** The integer of [LONG1] and [LONG4]: a set top bit means a negative
    number, which [N] does not hold. *)
Definition decode_long (encoded : list byte) : result N :=
  match last encoded with
  | Some b =>
      if 128 <=? Byte.to_N b then Err not_an_integer
      else Ok (le_value encoded)
  | None => Ok 0
  end.

Definition load_counted (len : N) (rest : list byte) : result N :=
  match reverse rest with
  | x2e :: encoded =>
      if N.of_nat (length encoded) =? len then decode_long (reverse encoded)
      else Err not_an_integer
  | _ => Err not_an_integer
  end.

Definition load_long (body : list byte) : result N :=
  match body with
  | [x4b; b0; x2e] => Ok (le_value [b0])
  | [x4d; b0; b1; x2e] => Ok (le_value [b0; b1])
  | [x4a; b0; b1; b2; b3; x2e] => decode_long [b0; b1; b2; b3]
  | x8a :: l0 :: rest => load_counted (le_value [l0]) rest
  | x8b :: l0 :: l1 :: l2 :: l3 :: rest =>
      load_counted (le_value [l0; l1; l2; l3]) rest
  | _ => Err not_an_integer
  end.

(** [pickle.loads] on the pickles that [dumps] writes.  [N] holds no
    other object, so every other byte string is reported as an error. *)
Definition loads (raw : list byte) : result N :=
  match raw with
  | x80 :: x04 :: x95 :: l0 :: l1 :: l2 :: l3 :: l4 :: l5 :: l6 :: l7
    :: body =>
      if le_value [l0; l1; l2; l3; l4; l5; l6; l7]
         =? N.of_nat (length body)
      then load_long body
      else Err not_an_integer
  | x80 :: x04 :: body => load_long body
  | _ => Err not_an_integer
  end.

(** [def add(x, y): return x + y] *)
Definition add : PyFunction :=
  {| fn_name := "add";
     fn_call := fun args kwargs =>
       match args, kwargs with
       | [x; y], [] => Ok (x + y)
       | _, _ => Err (Raised "TypeError")
       end |}.

(** [def square(z): return z * z] *)
Definition square : PyFunction :=
  {| fn_name := "square";
     fn_call := fun args kwargs =>
       match args, kwargs with
       | [z], [] => Ok (z * z)
       | _, _ => Err (Raised "TypeError")
       end |}.

(** [def x(): return 0] *)
Definition fx : @PyFunction N :=
  {| fn_name := "x";
     fn_call := fun args kwargs =>
       match args, kwargs with
       | [], [] => Ok 0
       | _, _ => Err (Raised "TypeError")
       end |}.

(** [def foo(v): return v] *)
Definition foo : @PyFunction N :=
  {| fn_name := "foo";
     fn_call := fun args kwargs =>
       match args, kwargs with
       | [v], [] => Ok v
       | _, _ => Err (Raised "TypeError")
       end |}.

(** A second function called [foo]: [def foo(): return 1] *)
Definition foo' : @PyFunction N :=
  {| fn_name := "foo";
     fn_call := fun args kwargs =>
       match args, kwargs with
       | [], [] => Ok 1
       | _, _ => Err (Raised "TypeError")
       end |}.

(** A second function that is also called [add]. *)
Definition add' : PyFunction :=
  {| fn_name := "add";
     fn_call := fun args kwargs =>
       match args, kwargs with
       | [x; y; z], [] => Ok (x + y + z)
       | _, _ => Err (Raised "TypeError")
       end |}.

Definition empty_heap : Heap :=
  {| obj := fun _ => mkTask "" (fun _ _ => Err (Raised "no such object"));
     brk := 0%nat |}.

(** [graph = TaskGraph()] *)
Definition w0 : World := {| heap := empty_heap; self := TaskGraph_init |}.

#[export] Instance mini_pickle : Pickle N :=
  {| pickle_dumps := dumps; pickle_loads := loads |}.

Definition register : PyFunction → list ref → World → ref * World :=
  add_task.

(** [add] without dependencies, then [square] depending on [add]. *)
Definition w1 : World := (register add [] w0).2.
Definition w2 : World := (register square [(register add [] w0).1] w1).2.

(** [add] registered, then the name [add] registered again with the
    first [Task] as its dependency. *)
Definition w_twice : World := (register add' [(register add [] w0).1] w1).2.

Definition enc (n : N) : string :=
  match serialize n with
  | Ok text => text
  | Err _ => ""
  end.

(** [add], then [x], then the name [add] again, depending on [x]. *)
Definition w_shadowed_source : World :=
  (register add' [1%nat] (register fx [] w1).2).2.

(** [x], then [foo] depending on [x], then the name [foo] again without
    dependencies. *)
Definition w_shadowed_edge : World :=
  (register foo' []
     (register foo [0%nat] (register fx [] w0).2).2).2.

End Mini.

(** A second instance, with an object that [pickle] refuses: a generator
    ([TypeError: cannot pickle 'generator' object]). *)

Module MiniGen.

Inductive pyobj : Type :=
  | Int (n : N)
  | Generator.

Definition dumps (v : pyobj) : result (list byte) :=
  match v with
  | Int n => Mini.dumps n
  | Generator => Err (TypeError "cannot pickle 'generator' object")
  end.

Definition loads (raw : list byte) : result pyobj :=
  match Mini.loads raw with
  | Ok n => Ok (Int n)
  | Err e => Err e
  end.

#[global] Instance gen_pickle : Pickle pyobj :=
  {| pickle_dumps := dumps; pickle_loads := loads |}.

(** [def numbers(): yield 1] *)
Definition numbers : @PyFunction pyobj :=
  {| fn_name := "numbers";
     fn_call := fun args kwargs =>
       match args, kwargs with
       | [], [] => Ok Generator
       | _, _ => Err (Raised "TypeError")
       end |}.

Definition wg : World := (add_task numbers [] Mini.w0).2.

End MiniGen.

(** ** The status node of [gcnsched_demo/scheduler.py]

    The node counts its timer callbacks in [i].  [published] is the
    sequence of messages handed to the publisher of the topic
    [scheduler_status] and [logged] the lines given to the logger, oldest
    first. *)

Module Scheduler.

Record Scheduler := {
  i : N;
  published : list string;
  logged : list string
}.

(** [Scheduler.__init__] *)
Definition Scheduler_init : Scheduler :=
  {| i := 0; published := []; logged := [] |}.

(** ['Scheduler status %d: GOOD' % i] *)
Definition status (i : N) : string :=
  "Scheduler status " +:+ pretty i +:+ ": GOOD".

(** ['Publishing: "%s"' % data] *)
Definition log_line (data : string) : string :=
  "Publishing: " +:+ String "034" (data +:+ String "034" "").

(** [Scheduler.timer_callback] *)
Definition timer_callback (self : Scheduler) : Scheduler :=
  let data := status (i self) in
  {| i := i self + 1;
     published := published self ++ [data];
     logged := logged self ++ [log_line data] |}.

(** The node after [n] firings of the timer. *)
Definition after_ticks (n : nat) : Scheduler :=
  Nat.iter n timer_callback Scheduler_init.

End Scheduler.

(** * Properties

    ** The comprehension helper *)

Lemma list_comp_ok {A B} (f : A → result B) xs ys :
  Forall2 (fun x y => f x = Ok y) xs ys → list_comp f xs = Ok ys.
Proof.
  induction 1 as [|x y xs ys Hx _ IH]; simpl; [done|].
  by rewrite Hx, IH.
Qed.

Lemma list_comp_pure {A B} (f : A → B) xs :
  list_comp (fun x => Ok (f x)) xs = Ok (f <$> xs).
Proof. induction xs as [|x xs IH]; simpl; [done|]. by rewrite IH. Qed.

Lemma list_comp_err {A B} (f : A → result B) pre a post ys e :
  Forall2 (fun x y => f x = Ok y) pre ys → f a = Err e →
  list_comp f (pre ++ a :: post) = Err e.
Proof.
  induction 1 as [|x y xs ys' Hx _ IH]; intros Ha; simpl.
  - by rewrite Ha.
  - by rewrite Hx, IH.
Qed.

(** ** Strings and lists *)

Lemma string_app_cons (c : ascii) (s t : string) :
  String c s +:+ t = String c (s +:+ t).
Proof. reflexivity. Qed.

Lemma string_app_assoc (s1 s2 s3 : string) :
  (s1 +:+ s2) +:+ s3 = s1 +:+ (s2 +:+ s3).
Proof.
  induction s1 as [|c s1 IH]; [done|].
  by rewrite !string_app_cons, IH.
Qed.

Lemma string_app_length (s1 s2 : string) :
  String.length (s1 +:+ s2) = String.length s1 + String.length s2.
Proof.
  induction s1 as [|c s1 IH]; [done|].
  rewrite string_app_cons. cbn [String.length]. by rewrite IH.
Qed.

Lemma string_app_inj_r (s1 s2 t : string) :
  s1 +:+ t = s2 +:+ t → s1 = s2.
Proof.
  revert s2. induction s1 as [|c s1 IH]; intros [|c' s2] Heq.
  - done.
  - apply (f_equal String.length) in Heq.
    rewrite !string_app_length in Heq. cbn [String.length] in Heq. lia.
  - apply (f_equal String.length) in Heq.
    rewrite !string_app_length in Heq. cbn [String.length] in Heq. lia.
  - rewrite !string_app_cons in Heq. injection Heq as -> Heq.
    f_equal. by apply IH.
Qed.

Lemma concat_snoc (sep : string) (l : list string) (x : string) :
  String.concat sep (l ++ [x])
  = match l with
    | [] => x
    | _ => String.concat sep l +:+ sep +:+ x
    end.
Proof.
  induction l as [|a [|b l] IH]; [done..|].
  change (String.concat sep ((a :: b :: l) ++ [x]))
    with (a +:+ sep +:+ String.concat sep ((b :: l) ++ [x])).
  rewrite IH.
  change (String.concat sep (a :: b :: l))
    with (a +:+ sep +:+ String.concat sep (b :: l)).
  by rewrite !string_app_assoc.
Qed.

Lemma list_min_elem (l : list nat) :
  l ≠ [] → ∃ m : nat, m ∈ l ∧ ∀ x : nat, x ∈ l → (m ≤ x)%nat.
Proof.
  induction l as [|a [|b l] IH]; [done| |]; intros _.
  - exists a. split; [apply list_elem_of_here|].
    by intros x ->%list_elem_of_singleton.
  - destruct IH as (m & Hm & Hle); [done|].
    destruct (decide (a ≤ m)%nat) as [Ham|Ham].
    + exists a. split; [apply list_elem_of_here|].
      intros x [->|Hx]%elem_of_cons; [done|]. apply Hle in Hx. lia.
    + exists m. split; [by apply list_elem_of_further|].
      intros x [->|Hx]%elem_of_cons; [lia | by apply Hle].
Qed.

Lemma list_max_elem (l : list nat) :
  l ≠ [] → ∃ m : nat, m ∈ l ∧ ∀ x : nat, x ∈ l → (x ≤ m)%nat.
Proof.
  induction l as [|a [|b l] IH]; [done| |]; intros _.
  - exists a. split; [apply list_elem_of_here|].
    by intros x ->%list_elem_of_singleton.
  - destruct IH as (m & Hm & Hle); [done|].
    destruct (decide (m ≤ a)%nat) as [Ham|Ham].
    + exists a. split; [apply list_elem_of_here|].
      intros x [->|Hx]%elem_of_cons; [done|]. apply Hle in Hx. lia.
    + exists m. split; [by apply list_elem_of_further|].
      intros x [->|Hx]%elem_of_cons; [lia | by apply Hle].
Qed.

(** ** The base64 model on examples *)

Example b64encode_pickled_True :
  decode_utf8 (Base64.b64encode [x80; x04; x88; x2e]) = Ok "gASILg==".
Proof. reflexivity. Qed.

Example b64decode_pickled_True :
  Base64.b64decode "gASILg==" = Ok [x80; x04; x88; x2e].
Proof. reflexivity. Qed.

Example b64decode_skips_foreign_characters :
  Base64.b64decode "gA SI
Lg==" = Ok [x80; x04; x88; x2e].
Proof. reflexivity. Qed.

Example b64decode_incorrect_padding :
  Base64.b64decode "gASILg=" = Err (BinasciiError "Incorrect padding").
Proof. reflexivity. Qed.

(** ** Decoding undoes encoding

    The facts about single characters and bytes are checked by running the
    definitions on all 64 six-bit values and on all pairs of bytes. *)

Module Base64Facts.

Import Base64.
Local Open Scope N_scope.

Lemma all_bytes_nth (b : byte) :
  nth (N.to_nat (Byte.to_N b)) all_bytes x00 = b.
Proof. destruct b; reflexivity. Qed.

Lemma all_bytes_In (b : byte) : In b all_bytes.
Proof.
  rewrite <- (all_bytes_nth b). apply nth_In.
  pose proof (Byte.to_N_bounded b) as Hb.
  change (length all_bytes) with 256%nat. lia.
Qed.

Lemma forall_byte (P : byte → bool) :
  forallb P all_bytes = true → ∀ b, P b = true.
Proof.
  intros H b. rewrite forallb_forall in H. apply H, all_bytes_In.
Qed.

Lemma forall_byte2 (P : byte → byte → bool) :
  forallb (fun a => forallb (P a) all_bytes) all_bytes = true →
  ∀ a b, P a b = true.
Proof.
  intros H a b. apply (forall_byte (P a)).
  apply (forall_byte (fun a => forallb (P a) all_bytes) H a).
Qed.

Lemma char_ok_below (v : N) : v < 64 → char_ok v = true.
Proof.
  intros Hv.
  assert (Hall : forallb (fun n => char_ok (N.of_nat n)) (seq 0 64) = true)
    by (vm_compute; reflexivity).
  rewrite forallb_forall in Hall.
  rewrite <- (N2Nat.id v). apply Hall, in_seq. lia.
Qed.

Lemma a2b_step_char (st : a2b_state) (v : N) :
  v < 64 →
  a2b_step st (table_b2a v) =
    match quad_pos st with
    | 0%nat => Continue (A2B 1 v 0 (bin_data st))
    | 1%nat =>
        Continue (A2B 2 (N.land v 15) 0
          (bin_data st ++
           [to_uchar (N.lor (N.shiftl (leftchar st) 2) (N.shiftr v 4))]))
    | 2%nat =>
        Continue (A2B 3 (N.land v 3) 0
          (bin_data st ++
           [to_uchar (N.lor (N.shiftl (leftchar st) 4) (N.shiftr v 2))]))
    | _ =>
        Continue (A2B 0 0 0
          (bin_data st ++ [to_uchar (N.lor (N.shiftl (leftchar st) 6) v)]))
    end.
Proof.
  intros Hv. pose proof (char_ok_below v Hv) as Hok.
  unfold char_ok in Hok.
  apply andb_prop in Hok as [Hok _]. apply andb_prop in Hok as [Hpad Htab].
  apply negb_true_iff in Hpad. apply N.eqb_eq in Htab.
  unfold a2b_step. rewrite Hpad, Htab.
  destruct (N.leb_spec 64 v); [lia | reflexivity].
Qed.

Lemma sextet1_lt a : sextet1 a < 64.
Proof.
  apply N.ltb_lt. revert a. apply forall_byte. vm_compute. reflexivity.
Qed.

Lemma sextet2_lt a b : sextet2 a b < 64.
Proof.
  apply N.ltb_lt. revert a b.
  apply (forall_byte2 (fun a b => sextet2 a b <? 64)).
  vm_compute. reflexivity.
Qed.

Lemma sextet3_lt b c : sextet3 b c < 64.
Proof.
  apply N.ltb_lt. revert b c.
  apply (forall_byte2 (fun b c => sextet3 b c <? 64)).
  vm_compute. reflexivity.
Qed.

Lemma sextet4_lt c : sextet4 c < 64.
Proof.
  apply N.ltb_lt. revert c. apply forall_byte. vm_compute. reflexivity.
Qed.

Lemma tail1_lt a : N.shiftl (N.land (Byte.to_N a) 3) 4 < 64.
Proof.
  apply N.ltb_lt. revert a. apply forall_byte. vm_compute. reflexivity.
Qed.

Lemma tail2_lt b : N.shiftl (N.land (Byte.to_N b) 15) 2 < 64.
Proof.
  apply N.ltb_lt. revert b. apply forall_byte. vm_compute. reflexivity.
Qed.

Ltac by_all_bytes2 P :=
  intros a b; apply Byte.byte_dec_bl; revert a b;
  apply (forall_byte2 P); vm_compute; reflexivity.

Lemma first_byte a b :
  to_uchar (N.lor (N.shiftl (sextet1 a) 2) (N.shiftr (sextet2 a b) 4)) = a.
Proof.
  revert a b.
  by_all_bytes2 (fun a b => Byte.eqb
    (to_uchar (N.lor (N.shiftl (sextet1 a) 2) (N.shiftr (sextet2 a b) 4))) a).
Qed.

Lemma first_byte_tail a :
  to_uchar (N.lor (N.shiftl (sextet1 a) 2)
              (N.shiftr (N.shiftl (N.land (Byte.to_N a) 3) 4) 4)) = a.
Proof.
  apply Byte.byte_dec_bl. revert a. apply forall_byte.
  vm_compute. reflexivity.
Qed.

Lemma sextet2_low a b :
  N.land (sextet2 a b) 15 = N.shiftr (Byte.to_N b) 4.
Proof.
  apply N.eqb_eq. revert a b.
  apply (forall_byte2
    (fun a b => N.land (sextet2 a b) 15 =? N.shiftr (Byte.to_N b) 4)).
  vm_compute. reflexivity.
Qed.

Lemma second_byte b c :
  to_uchar (N.lor (N.shiftl (N.shiftr (Byte.to_N b) 4) 4)
              (N.shiftr (sextet3 b c) 2)) = b.
Proof.
  revert b c.
  by_all_bytes2 (fun b c => Byte.eqb
    (to_uchar (N.lor (N.shiftl (N.shiftr (Byte.to_N b) 4) 4)
                 (N.shiftr (sextet3 b c) 2))) b).
Qed.

Lemma second_byte_tail b :
  to_uchar (N.lor (N.shiftl (N.shiftr (Byte.to_N b) 4) 4)
              (N.shiftr (N.shiftl (N.land (Byte.to_N b) 15) 2) 2)) = b.
Proof.
  apply Byte.byte_dec_bl. revert b. apply forall_byte.
  vm_compute. reflexivity.
Qed.

Lemma third_byte b c :
  to_uchar (N.lor (N.shiftl (N.land (sextet3 b c) 3) 6) (sextet4 c)) = c.
Proof.
  revert b c.
  by_all_bytes2 (fun b c => Byte.eqb
    (to_uchar (N.lor (N.shiftl (N.land (sextet3 b c) 3) 6) (sextet4 c))) c).
Qed.

Lemma list_ind3 {A} (P : list A → Prop) :
  P [] → (∀ a, P [a]) → (∀ a b, P [a; b]) →
  (∀ a b c l, P l → P (a :: b :: c :: l)) →
  ∀ l, P l.
Proof.
  intros H0 H1 H2 H3 l.
  assert (H : P l ∧ (∀ a, P (a :: l)) ∧ (∀ a b, P (a :: b :: l))).
  { induction l as [|x l (IH0 & IH1 & IH2)]; [by auto|].
    split; [apply IH1|]. split; [intros a; apply IH2|].
    intros a b. by apply H3. }
  apply H.
Qed.

(** One character of the encoder's output through [a2b_step]. *)
Ltac decode_char Hlt :=
  rewrite (a2b_step_char _ _ Hlt); cbn [quad_pos bin_data leftchar].

Lemma a2b_loop_b2a (data out : list byte) :
  a2b_loop (A2B 0 0 0 out) (b2a_base64 data) = Ok (out ++ data).
Proof.
  revert out. induction data as [|a|a b|a b c rest IH] using list_ind3;
    intros out.
  - simpl. by rewrite app_nil_r.
  - cbn [b2a_base64 a2b_loop].
    decode_char (sextet1_lt a).
    decode_char (tail1_lt a).
    by rewrite first_byte_tail.
  - cbn [b2a_base64 a2b_loop].
    decode_char (sextet1_lt a).
    decode_char (sextet2_lt a b).
    decode_char (tail2_lt b).
    rewrite first_byte, sextet2_low, second_byte_tail.
    cbn. by rewrite <- app_assoc.
  - cbn [b2a_base64 a2b_loop].
    decode_char (sextet1_lt a).
    decode_char (sextet2_lt a b).
    decode_char (sextet3_lt b c).
    decode_char (sextet4_lt c).
    rewrite first_byte, sextet2_low, second_byte, third_byte, IH.
    by rewrite <- !app_assoc.
Qed.

Lemma a2b_b2a (data : list byte) : a2b_base64 (b2a_base64 data) = Ok data.
Proof. unfold a2b_base64. by rewrite a2b_loop_b2a. Qed.

Lemma table_b2a_ascii (v : N) : is_ascii (table_b2a v) = true.
Proof.
  unfold table_b2a.
  assert (Hall : forallb is_ascii alphabet = true) by reflexivity.
  rewrite forallb_forall in Hall.
  destruct (Nat.lt_ge_cases (N.to_nat v) (length alphabet)) as [Hlt|Hge].
  - apply Hall. by apply nth_In.
  - by rewrite nth_overflow.
Qed.

Lemma b2a_base64_ascii (data : list byte) :
  forallb is_ascii (b2a_base64 data) = true.
Proof.
  induction data as [|a|a b|a b c rest IH] using list_ind3;
    cbn [b2a_base64 forallb]; rewrite ?table_b2a_ascii, ?IH; reflexivity.
Qed.

(** The shape of the encoder's output. *)

Lemma table_b2a_alphabet (v : N) : v < 64 → table_b2a v ∈ alphabet.
Proof.
  intros Hv. unfold table_b2a. apply list_elem_of_In, nth_In.
  change (length alphabet) with 64%nat. lia.
Qed.

Lemma b2a_base64_chars (data : list byte) :
  Forall (fun ch => ch ∈ alphabet ∨ ch = BASE64_PAD) (b2a_base64 data).
Proof.
  induction data as [|a|a b|a b c rest IH] using list_ind3;
    cbn [b2a_base64];
    repeat (apply Forall_cons; split;
            [first [ by right
                   | left; apply table_b2a_alphabet;
                     first [ apply sextet1_lt | apply sextet2_lt
                           | apply sextet3_lt | apply sextet4_lt
                           | apply tail1_lt | apply tail2_lt ] ] |]);
    first [apply Forall_nil_2 | exact IH].
Qed.

Lemma b2a_base64_length (data : list byte) :
  length (b2a_base64 data) = (4 * ((length data + 2) / 3))%nat.
Proof.
  induction data as [|a|a b|a b c rest IH] using list_ind3;
    [reflexivity..|].
  cbn [b2a_base64 length]. rewrite IH.
  replace (S (S (S (length rest))) + 2)%nat
    with (1 * 3 + (length rest + 2))%nat by lia.
  rewrite Nat.div_add_l by lia. lia.
Qed.

End Base64Facts.

(** ** Facts about dictionaries *)

Section DictFacts.

Context {K V : Type} `{EqDecision K}.

Lemma dict_get_set_eq (k : K) (v : V) (d : dict K V) :
  dict_get k (dict_set k v d) = Some v.
Proof.
  induction d as [|[k' v'] d IH]; simpl.
  - by rewrite decide_True.
  - destruct (decide (k = k')) as [->|Hne]; simpl.
    + by rewrite decide_True.
    + by rewrite decide_False.
Qed.

Lemma dict_get_set_ne (k k' : K) (v : V) (d : dict K V) :
  k ≠ k' → dict_get k' (dict_set k v d) = dict_get k' d.
Proof.
  intros Hne. induction d as [|[k1 v1] d IH]; simpl.
  - by rewrite decide_False.
  - destruct (decide (k = k1)) as [->|Hk]; simpl.
    + by rewrite !decide_False.
    + by rewrite IH.
Qed.

Lemma dict_get_None (k : K) (d : dict K V) :
  dict_get k d = None ↔ k ∉ dict_keys d.
Proof.
  induction d as [|[k' v'] d IH]; simpl.
  - split; [intros _; apply not_elem_of_nil | done].
  - rewrite not_elem_of_cons. destruct (decide (k = k')) as [->|Hne].
    + split; [done | by intros [? _]].
    + rewrite IH. tauto.
Qed.

Lemma dict_get_Some_elem (k : K) (v : V) (d : dict K V) :
  dict_get k d = Some v → (k, v) ∈ d.
Proof.
  induction d as [|[k' v'] d IH]; simpl; [done|].
  destruct (decide (k = k')) as [->|Hne].
  - intros [= ->]. apply list_elem_of_here.
  - intros H. apply list_elem_of_further, IH, H.
Qed.

Lemma dict_get_is_Some (k : K) (d : dict K V) :
  is_Some (dict_get k d) ↔ k ∈ dict_keys d.
Proof.
  rewrite <- not_eq_None_Some, dict_get_None.
  destruct (decide (k ∈ dict_keys d)); tauto.
Qed.

Lemma dict_elem_get (k : K) (v : V) (d : dict K V) :
  NoDup (dict_keys d) → (k, v) ∈ d → dict_get k d = Some v.
Proof.
  induction d as [|[k' v'] d IH]; simpl; [by intros _ ?%elem_of_nil|].
  intros [Hk' Hnd]%NoDup_cons [[= -> ->]|Hin]%elem_of_cons.
  - by rewrite decide_True.
  - rewrite decide_False; [by apply IH|].
    intros ->. apply Hk'. apply list_elem_of_fmap. by exists (k', v).
Qed.

Lemma dict_set_fresh (k : K) (v : V) (d : dict K V) :
  dict_get k d = None → dict_set k v d = d ++ [(k, v)].
Proof.
  induction d as [|[k' v'] d IH]; simpl; [done|].
  destruct (decide (k = k')); [done|]. intros H. by rewrite IH.
Qed.

Lemma dict_keys_set (k : K) (v : V) (d : dict K V) :
  dict_keys (dict_set k v d) =
    if decide (k ∈ dict_keys d) then dict_keys d else dict_keys d ++ [k].
Proof.
  induction d as [|[k' v'] d IH].
  - destruct (decide (k ∈ dict_keys [])) as [Hin|_]; [|done].
    by apply elem_of_nil in Hin.
  - change (dict_keys ((k', v') :: d)) with (k' :: dict_keys d).
    cbn [dict_set]. destruct (decide (k = k')) as [->|Hne].
    + rewrite decide_True; [done | apply list_elem_of_here].
    + change (dict_keys ((k', v') :: dict_set k v d))
        with (k' :: dict_keys (dict_set k v d)).
      rewrite IH. destruct (decide (k ∈ dict_keys d)) as [Hin|Hnin].
      * rewrite decide_True; [done | by apply list_elem_of_further].
      * rewrite decide_False; [done|].
        rewrite not_elem_of_cons. done.
Qed.

Lemma dict_keys_set_NoDup (k : K) (v : V) (d : dict K V) :
  NoDup (dict_keys d) → NoDup (dict_keys (dict_set k v d)).
Proof.
  intros Hnd. rewrite dict_keys_set. case_decide; [done|].
  apply NoDup_app. split; [done|]. split; [|apply NoDup_singleton].
  intros x Hx ->%list_elem_of_singleton. done.
Qed.

Lemma dict_fold_NoDup (items : list (K * V)) (acc : dict K V) :
  NoDup (dict_keys acc) →
  NoDup (dict_keys (fold_left (fun d kv => dict_set kv.1 kv.2 d) items acc)).
Proof.
  revert acc. induction items as [|[k v] items IH]; simpl; [done|].
  intros acc Hnd. by apply IH, dict_keys_set_NoDup.
Qed.

Lemma dict_of_items_NoDup (items : list (K * V)) :
  NoDup (dict_keys (dict_of_items items)).
Proof. apply dict_fold_NoDup. simpl. apply NoDup_nil_2. Qed.

(** The value found under a key is the one stored last. *)
Lemma dict_get_snoc (k k' : K) (v' : V) (l : dict K V) :
  dict_get k (l ++ [(k', v')]) =
    match dict_get k l with
    | Some v => Some v
    | None => if decide (k = k') then Some v' else None
    end.
Proof.
  induction l as [|[k1 v1] l IHl]; simpl; [done|].
  destruct (decide (k = k1)); [done | apply IHl].
Qed.

Lemma dict_get_fold (k : K) (items : list (K * V)) (acc : dict K V) :
  dict_get k (fold_left (fun d kv => dict_set kv.1 kv.2 d) items acc) =
    match dict_get k (reverse items) with
    | Some v => Some v
    | None => dict_get k acc
    end.
Proof.
  revert acc. induction items as [|[k' v'] items IH]; intros acc.
  - done.
  - cbn [fold_left fst snd]. rewrite IH, reverse_cons, dict_get_snoc.
    destruct (dict_get k (reverse items)); [done|].
    destruct (decide (k = k')) as [->|Hne].
    + apply dict_get_set_eq.
    + apply dict_get_set_ne. congruence.
Qed.

Lemma dict_get_of_items (k : K) (items : list (K * V)) :
  dict_get k (dict_of_items items) = dict_get k (reverse items).
Proof.
  unfold dict_of_items. rewrite dict_get_fold.
  by destruct (dict_get k (reverse items)).
Qed.

(** Stored on top of a dictionary whose keys are all different from the
    new ones, the pairs of a dictionary come out unchanged. *)
Lemma dict_of_items_id (d : dict K V) :
  NoDup (dict_keys d) → dict_of_items d = d.
Proof.
  intros Hnd. unfold dict_of_items.
  assert (H : ∀ acc : dict K V, NoDup (dict_keys (acc ++ d)) →
            fold_left (fun d kv => dict_set kv.1 kv.2 d) d acc = acc ++ d).
  { clear Hnd. induction d as [|[k v] d IH]; intros acc Hnd; simpl.
    - by rewrite app_nil_r.
    - rewrite dict_set_fresh.
      + rewrite IH; rewrite <- app_assoc; done.
      + apply dict_get_None. unfold dict_keys in Hnd.
        rewrite fmap_app in Hnd. apply NoDup_app in Hnd as (_ & Hdisj & _).
        intros Hin. apply (Hdisj k Hin). simpl. apply list_elem_of_here. }
  by apply (H []).
Qed.

End DictFacts.

(** Facts that relate dictionaries with different value types. *)

Section DictKeys.

Context {K : Type} `{EqDecision K}.

Lemma dict_keys_fold {V} (items : list (K * V)) (acc : dict K V) :
  dict_keys (fold_left (fun d kv => dict_set kv.1 kv.2 d) items acc)
  = fold_left keys_add items.*1 (dict_keys acc).
Proof.
  revert acc. induction items as [|[k v] items IH]; intros acc; [done|].
  rewrite fmap_cons. cbn [fold_left fst snd]. by rewrite IH, dict_keys_set.
Qed.

Lemma dict_keys_of_items_ext {V1 V2}
    (l1 : list (K * V1)) (l2 : list (K * V2)) :
  l1.*1 = l2.*1 → dict_keys (dict_of_items l1) = dict_keys (dict_of_items l2).
Proof.
  intros Heq. unfold dict_of_items. rewrite !dict_keys_fold. by rewrite Heq.
Qed.

Lemma dict_get_app {V} (k : K) (a b : dict K V) :
  dict_get k (a ++ b)
  = match dict_get k a with Some v => Some v | None => dict_get k b end.
Proof.
  induction a as [|[k' v'] a IH]; simpl; [done|].
  by destruct (decide (k = k')).
Qed.

Lemma dict_of_items_snoc {V} (l : list (K * V)) (k : K) (v : V) :
  dict_of_items (l ++ [(k, v)]) = dict_set k v (dict_of_items l).
Proof. unfold dict_of_items. by rewrite fold_left_app. Qed.

Lemma dict_last_occurrence {V} (k : K) (l : dict K V) :
  k ∈ dict_keys l →
  ∃ l1 v l2, l = l1 ++ (k, v) :: l2 ∧ k ∉ dict_keys l2.
Proof.
  induction l as [|[k' v'] l IH]; [by intros ?%elem_of_nil|].
  intros Hin. destruct (decide (k ∈ dict_keys l)) as [Hl|Hl].
  - destruct (IH Hl) as (l1 & v & l2 & -> & Hk).
    by exists ((k', v') :: l1), v, l2.
  - unfold dict_keys in Hin. rewrite fmap_cons in Hin.
    apply elem_of_cons in Hin as [->|Hin]; [|done].
    by exists [], v', l.
Qed.

Lemma dict_get_rev_last {V} (k : K) (v : V) (l1 l2 : dict K V) :
  k ∉ dict_keys l2 → dict_get k (reverse (l1 ++ (k, v) :: l2)) = Some v.
Proof.
  intros Hk. rewrite reverse_app, reverse_cons, <- app_assoc.
  rewrite dict_get_app.
  assert (Hnone : dict_get k (reverse l2) = None).
  { apply dict_get_None. unfold dict_keys in *.
    rewrite fmap_reverse, elem_of_reverse. done. }
  rewrite Hnone. simpl. by rewrite decide_True.
Qed.

End DictKeys.

(** ** Properties of the registry *)

Section Properties.

Context {value : Type} `{!Pickle value}.

(** *** The codec *)

Lemma decode_utf8_b64encode (raw : list byte) :
  decode_utf8 (Base64.b64encode raw)
  = Ok (string_of_list_byte (Base64.b64encode raw)).
Proof.
  unfold decode_utf8, Base64.b64encode.
  by rewrite (Base64Facts.b2a_base64_ascii raw).
Qed.

Lemma b64decode_b64encode (raw : list byte) :
  Base64.b64decode (string_of_list_byte (Base64.b64encode raw)) = Ok raw.
Proof.
  unfold Base64.b64decode, Base64.bytes_from_decode_data, Base64.b64encode.
  rewrite list_byte_of_string_of_list_byte.
  rewrite (Base64Facts.b2a_base64_ascii raw). simpl.
  apply Base64Facts.a2b_b2a.
Qed.

Lemma codec_round_trip (v : value) (raw : list byte) :
  pickle_dumps v = Ok raw →
  pickle_loads raw = Ok v →
  serialize v = Ok (string_of_list_byte (Base64.b64encode raw))
  ∧ deserialize (string_of_list_byte (Base64.b64encode raw)) = Ok v.
Proof.
  intros Hdumps Hloads. split.
  - unfold serialize. rewrite Hdumps. cbn [bind].
    apply decode_utf8_b64encode.
  - unfold deserialize. rewrite b64decode_b64encode. cbn [bind].
    exact Hloads.
Qed.

(** C1.  For every value that [pickle] supports (it can be dumped, and
    loading the dump gives the value back), [serialize] returns a text
    and [deserialize] of that text returns the value. *)
Theorem deserialize_serialize (v : value) :
  picklable v →
  ∃ text, serialize v = Ok text ∧ deserialize text = Ok v.
Proof.
  intros (raw & Hdumps & Hloads).
  exists (string_of_list_byte (Base64.b64encode raw)).
  by apply codec_round_trip.
Qed.

(** *** Execution *)

Lemma new_Task_obj (o : Task) (h : Heap) :
  obj (new_Task o h).2 (new_Task o h).1 = o.
Proof. simpl. by rewrite decide_True. Qed.

Lemma new_Task_old (o : Task) (h : Heap) (r : ref) :
  allocated h r → obj (new_Task o h).2 r = obj h r.
Proof.
  unfold allocated. intros Hr. simpl. rewrite decide_False; [done | lia].
Qed.

Lemma add_task_wraps (w : World) (fn : PyFunction) (deps : list ref) :
  wraps (add_task fn deps w).2 (fn_name fn) fn.
Proof.
  exists (brk (heap w)). unfold add_task. simpl.
  rewrite decide_True by done. simpl. split; [|done].
  apply dict_get_set_eq.
Qed.

Lemma bind_keywords_ok (fname : string) (params : list string)
    (kwargs : list (string * string)) :
  Forall (fun key => key ∉ params) kwargs.*1 →
  bind_keywords fname params kwargs = Ok tt.
Proof.
  induction kwargs as [|[key a] kwargs IH]; [done|].
  rewrite fmap_cons. intros [Hkey Hrest]%Forall_cons. cbn [bind_keywords].
  rewrite decide_False by done. by apply IH.
Qed.

Lemma bindable_execute (kwargs : dict string string) :
  bindable kwargs →
  Forall (fun key => key ∉ ["self"; "name"]) (dict_keys kwargs).
Proof.
  intros [Hself Hname]. apply Forall_forall. intros key Hkey Hin.
  apply elem_of_cons in Hin as [->|Hin]; [done|].
  apply list_elem_of_singleton in Hin as ->. done.
Qed.

Lemma bindable_call (kwargs : dict string string) :
  bindable kwargs → Forall (fun key => key ∉ ["self"]) (dict_keys kwargs).
Proof.
  intros [Hself _]. apply Forall_forall. intros key Hkey Hin.
  apply list_elem_of_singleton in Hin as ->. done.
Qed.

(** With keywords that can be bound, [execute] looks the name up and
    calls what the [Task] wraps. *)
Lemma execute_bound (w : World) (n : string) (args : list string)
    (kwargs : dict string string) :
  bindable kwargs →
  execute w n args kwargs
  = (let! task := getitem KeyStr n (task_names (self w)) in
     call (obj (heap w) task) args kwargs).
Proof.
  intros Hb. unfold execute, Task_call, dict_items.
  rewrite (bind_keywords_ok "TaskGraph.execute")
    by by apply bindable_execute.
  cbn [bind]. destruct (getitem KeyStr n (task_names (self w))); [|done].
  cbn [bind].
  by rewrite (bind_keywords_ok "Task.__call__") by by apply bindable_call.
Qed.

(** C2, as the code has it.  When [task_names] holds under [n] a task
    wrapping [fn], no keyword is called [self] or [name], the encoded
    positional arguments decode to [vs], the encoded keyword arguments
    decode to [kvs], and [fn] returns a supported value [r] on them,
    [execute] returns a text that decodes to [r]. *)
Theorem execute_returns_encoded_result
    (w : World) (n : string) (fn : PyFunction)
    (args : list string) (kwargs : dict string string)
    (vs : list value) (kvs : dict string value) (r : value) :
  wraps w n fn →
  Forall2 (fun a v => deserialize a = Ok v) args vs →
  NoDup (dict_keys kwargs) →
  bindable kwargs →
  Forall2 (fun ka kv => ka.1 = kv.1 ∧ deserialize ka.2 = Ok kv.2)
          kwargs kvs →
  fn_call fn vs kvs = Ok r →
  picklable r →
  ∃ text, execute w n args kwargs = Ok text ∧ deserialize text = Ok r.
Proof.
  intros (t & Hname & Hobj) Hargs Hnd Hb Hkw Hcall (raw & Hdumps & Hloads).
  destruct (codec_round_trip r raw Hdumps Hloads) as [Hser Hdes].
  eexists. split; [|exact Hdes].
  rewrite execute_bound by done. unfold getitem. rewrite Hname. simpl.
  rewrite Hobj. simpl. unfold _fun.
  rewrite (list_comp_ok _ _ _ Hargs). simpl.
  assert (Hitems :
    list_comp (fun kv : string * string =>
                 let! v := deserialize kv.2 in Ok (kv.1, v))
              (dict_items kwargs) = Ok kvs).
  { apply list_comp_ok. unfold dict_items.
    eapply Forall2_impl; [exact Hkw|]. intros [k a] [k' v] [Hk Hv].
    simpl in *. rewrite Hv. simpl. by rewrite Hk. }
  rewrite Hitems. simpl.
  assert (Hkeys : dict_keys kvs = dict_keys kwargs).
  { clear -Hkw. induction Hkw as [|[k a] [k' v] l l' [Hk _] _ IH]; [done|].
    unfold dict_keys in *. rewrite !fmap_cons. simpl in Hk. by f_equal. }
  rewrite dict_of_items_id by (by rewrite Hkeys).
  rewrite Hcall. simpl. exact Hser.
Qed.

(** *** Lookup failures *)

(** C3, as the code has it.  For a name that is not a key of
    [task_names], [dependencies] raises [KeyError] for that name, and so
    does [execute] with any positional arguments and any keywords none of
    which is called [self] or [name]. *)
Theorem unknown_name_raises_KeyError
    (w : World) (n : string) (args : list string)
    (kwargs : dict string string) :
  n ∉ dict_keys (task_names (self w)) →
  dependencies w n = Err (KeyError (KeyStr n))
  ∧ (bindable kwargs →
     execute w n args kwargs = Err (KeyError (KeyStr n))).
Proof.
  intros Hn%dict_get_None. split.
  - unfold dependencies, getitem. by rewrite Hn.
  - intros Hb. rewrite execute_bound by done.
    unfold getitem. by rewrite Hn.
Qed.

(** *** Registration *)

Lemma add_task_dependencies_eq
    (w : World) (fn : PyFunction) (deps : list ref) :
  Forall (allocated (heap w)) deps →
  dependencies (add_task fn deps w).2 (fn_name fn)
  = Ok (name_of w <$> deps).
Proof.
  intros Halloc. unfold dependencies, getitem, add_task. simpl.
  rewrite decide_True by done. simpl.
  rewrite dict_get_set_eq. simpl. rewrite dict_get_set_eq. simpl.
  rewrite list_comp_pure. f_equal.
  apply list_fmap_ext. intros i d Hd.
  unfold name_of. simpl. rewrite decide_False; [done|].
  rewrite Forall_forall in Halloc.
  apply list_elem_of_lookup_2, Halloc in Hd. unfold allocated in Hd. lia.
Qed.

Lemma add_task_allocates (w : World) (fn : PyFunction) (deps : list ref) :
  allocated (heap (add_task fn deps w).2) (add_task fn deps w).1
  ∧ name_of (add_task fn deps w).2 (add_task fn deps w).1 = fn_name fn.
Proof.
  unfold allocated, name_of, add_task. simpl.
  rewrite decide_True by done. simpl. split; [lia | done].
Qed.

(** C4.  After [add_task fn deps], [dependencies] of the function's name
    is the list of the names of [deps], in the order given; the returned
    handle is an existing [Task] carrying the function's name, and a
    later [add_task] that lists it among its dependencies reports that
    name at the same position. *)
Theorem add_task_then_dependencies
    (w : World) (fn : PyFunction) (deps : list ref) :
  Forall (allocated (heap w)) deps →
  dependencies (add_task fn deps w).2 (fn_name fn)
    = Ok (name_of w <$> deps)
  ∧ allocated (heap (add_task fn deps w).2) (add_task fn deps w).1
  ∧ ∀ (fn2 : PyFunction) (before after : list ref),
      Forall (allocated (heap (add_task fn deps w).2)) before →
      Forall (allocated (heap (add_task fn deps w).2)) after →
      dependencies
        (add_task fn2 (before ++ (add_task fn deps w).1 :: after)
                  (add_task fn deps w).2).2
        (fn_name fn2)
      = Ok ((name_of (add_task fn deps w).2 <$> before)
            ++ fn_name fn :: (name_of (add_task fn deps w).2 <$> after)).
Proof.
  intros Halloc. split; [by apply add_task_dependencies_eq|].
  destruct (add_task_allocates w fn deps) as [Ht Hname].
  split; [done|]. intros fn2 before after Hb Ha.
  rewrite add_task_dependencies_eq.
  - by rewrite fmap_app, fmap_cons, Hname.
  - apply Forall_app. split; [done|]. by apply Forall_cons.
Qed.

(** *** The invariant of reachable worlds *)

Lemma graph_inv_init (h : Heap) :
  graph_inv {| heap := h; self := TaskGraph_init |}.
Proof.
  split; simpl.
  - apply Forall_nil_2.
  - apply NoDup_nil_2.
  - reflexivity.
Qed.

Lemma name_entries_ext (w w' : World) :
  task_deps (self w') = task_deps (self w) →
  (∀ t, t ∈ dict_keys (task_deps (self w)) → name_of w' t = name_of w t) →
  name_entries w' = name_entries w.
Proof.
  intros Hdeps Hnames. unfold name_entries. rewrite Hdeps.
  apply list_fmap_ext. intros i [t ds] Hi. simpl.
  rewrite Hnames; [done|].
  apply list_elem_of_lookup_2 in Hi.
  apply list_elem_of_fmap. by exists (t, ds).
Qed.

Lemma name_of_new_Task (w : World) (o : Task) (s : TaskGraph) (t : ref) :
  allocated (heap w) t →
  name_of {| heap := (new_Task o (heap w)).2; self := s |} t = name_of w t.
Proof.
  unfold allocated, name_of. intros Ht. simpl.
  rewrite decide_False; [done | lia].
Qed.

Lemma graph_inv_new_Task (w : World) (o : Task) :
  graph_inv w →
  graph_inv {| heap := (new_Task o (heap w)).2; self := self w |}.
Proof.
  intros [Halloc Hnd Hnames]. split; simpl self.
  - eapply Forall_impl; [exact Halloc|]. unfold allocated. simpl. lia.
  - done.
  - rewrite Hnames. f_equal. symmetry. apply name_entries_ext; [done|].
    intros t Ht. apply name_of_new_Task.
    rewrite Forall_forall in Halloc. by apply Halloc.
Qed.

Lemma brk_not_key (w : World) :
  graph_inv w → dict_get (brk (heap w)) (task_deps (self w)) = None.
Proof.
  intros [Halloc _ _]. apply dict_get_None. intros Hin.
  rewrite Forall_forall in Halloc. apply Halloc in Hin.
  unfold allocated in Hin. lia.
Qed.

Lemma add_task_task_deps (w : World) (fn : PyFunction) (deps : list ref) :
  graph_inv w →
  task_deps (self (add_task fn deps w).2)
  = task_deps (self w) ++ [(brk (heap w), deps)].
Proof.
  intros Hinv. unfold add_task. simpl.
  by rewrite dict_set_fresh by by apply brk_not_key.
Qed.

Lemma add_task_task_names (w : World) (fn : PyFunction) (deps : list ref) :
  task_names (self (add_task fn deps w).2)
  = dict_set (fn_name fn) (brk (heap w)) (task_names (self w)).
Proof. unfold add_task. simpl. by rewrite decide_True. Qed.

Lemma add_task_name_of_old
    (w : World) (fn : PyFunction) (deps : list ref) (t : ref) :
  allocated (heap w) t → name_of (add_task fn deps w).2 t = name_of w t.
Proof.
  unfold allocated, name_of, add_task. intros Ht. simpl.
  rewrite decide_False; [done | lia].
Qed.

Lemma add_task_name_of_new (w : World) (fn : PyFunction) (deps : list ref) :
  name_of (add_task fn deps w).2 (brk (heap w)) = fn_name fn.
Proof. unfold name_of, add_task. simpl. by rewrite decide_True. Qed.

Lemma graph_inv_add_task (w : World) (fn : PyFunction) (deps : list ref) :
  graph_inv w → graph_inv (add_task fn deps w).2.
Proof.
  intros Hinv. pose proof Hinv as [Halloc Hnd Hnames].
  pose proof (add_task_task_deps w fn deps Hinv) as Hdeps.
  split.
  - rewrite Hdeps. unfold dict_keys. rewrite fmap_app.
    apply Forall_app. split.
    + eapply Forall_impl; [exact Halloc|].
      unfold allocated, add_task. simpl. lia.
    + apply Forall_singleton. unfold allocated, add_task. simpl. lia.
  - rewrite Hdeps. unfold dict_keys. rewrite fmap_app.
    apply NoDup_app. split; [done|]. split; [|apply NoDup_singleton].
    intros t Ht ->%list_elem_of_singleton.
    rewrite Forall_forall in Halloc. apply Halloc in Ht.
    unfold allocated in Ht. simpl in Ht. lia.
  - rewrite add_task_task_names, Hnames.
    unfold name_entries at 2. rewrite Hdeps, fmap_app.
    replace ((fun item : ref * list ref =>
                (name_of (add_task fn deps w).2 item.1, item.1))
               <$> task_deps (self w))
      with (name_entries w).
    + rewrite list_fmap_singleton. simpl fst.
      by rewrite add_task_name_of_new, dict_of_items_snoc.
    + unfold name_entries. apply list_fmap_ext. intros i [t ds] Hi.
      cbn [fst]. rewrite add_task_name_of_old; [done|].
      rewrite Forall_forall in Halloc. apply Halloc.
      apply list_elem_of_lookup_2 in Hi.
      apply list_elem_of_fmap. by exists (t, ds).
Qed.

Lemma reachable_inv (w : World) : reachable w → graph_inv w.
Proof.
  induction 1 as [h|w o _ IH|w fn deps _ IH _].
  - apply graph_inv_init.
  - by apply graph_inv_new_Task.
  - by apply graph_inv_add_task.
Qed.

Lemma names_get (w : World) (n : string) :
  graph_inv w →
  dict_get n (task_names (self w)) = dict_get n (reverse (name_entries w)).
Proof. intros [_ _ ->]. apply dict_get_of_items. Qed.

Lemma names_NoDup (w : World) :
  graph_inv w → NoDup (dict_keys (task_names (self w))).
Proof. intros [_ _ ->]. apply dict_of_items_NoDup. Qed.

Lemma bound_is_key (w : World) (n : string) (t : ref) :
  graph_inv w →
  dict_get n (task_names (self w)) = Some t →
  t ∈ dict_keys (task_deps (self w)) ∧ name_of w t = n.
Proof.
  intros Hinv Hget. rewrite names_get in Hget by done.
  apply dict_get_Some_elem in Hget. rewrite elem_of_reverse in Hget.
  unfold name_entries in Hget.
  apply list_elem_of_fmap in Hget as ([t' ds] & [= -> ->] & Hin).
  split; [|done]. apply list_elem_of_fmap. by exists (t', ds).
Qed.

Lemma key_has_deps (w : World) (t : ref) :
  t ∈ dict_keys (task_deps (self w)) →
  ∃ deps, dict_get t (task_deps (self w)) = Some deps.
Proof. intros Ht. by apply dict_get_is_Some in Ht as [deps ?]; exists deps. Qed.

Lemma bound_has_deps (w : World) (n : string) (t : ref) :
  graph_inv w →
  dict_get n (task_names (self w)) = Some t →
  ∃ deps, dict_get t (task_deps (self w)) = Some deps.
Proof. intros Hinv Hget. by apply key_has_deps, (bound_is_key w n). Qed.

(** *** Sources and sinks *)

Lemma registered_elem (w : World) (n : string) (t : ref) :
  graph_inv w →
  (n, t) ∈ dict_items (task_names (self w)) ↔ registered w n t.
Proof.
  intros Hinv. unfold registered, dict_items. split.
  - apply dict_elem_get. by apply names_NoDup.
  - apply dict_get_Some_elem.
Qed.

Lemma start_tasks_from_spec (w : World) (items : list (string * ref)) :
  (∀ n t, (n, t) ∈ items → ∃ deps, declared w t deps) →
  ∃ l, start_tasks_from w items = Ok l
       ∧ l `sublist_of` items.*1
       ∧ ∀ n, n ∈ l ↔ ∃ t, (n, t) ∈ items ∧ declared w t [].
Proof.
  induction items as [|[n0 t0] items IH]; intros Hdecl.
  - exists []. split; [done|]. split; [constructor|].
    intros n. split; [by intros ?%elem_of_nil|].
    by intros (t & ?%elem_of_nil & _).
  - destruct IH as (l & Hl & Hsub & Hmem).
    { intros n t Hin. apply (Hdecl n t). by apply list_elem_of_further. }
    destruct (Hdecl n0 t0) as (deps & Hdeps); [apply list_elem_of_here|].
    assert (Heq : start_tasks_from w ((n0, t0) :: items)
                  = Ok (match deps with [] => n0 :: l | _ => l end)).
    { cbn [start_tasks_from]. unfold getitem. unfold declared in Hdeps.
      rewrite Hdeps. cbn [bind]. by rewrite Hl. }
    rewrite Heq. clear Heq.
    destruct deps as [|d deps].
    + exists (n0 :: l). split; [done|]. split; [by constructor|].
      intros n. rewrite elem_of_cons, Hmem. split.
      * intros [->|(t & Hin & Ht)].
        -- exists t0. split; [apply list_elem_of_here | done].
        -- exists t. split; [by apply list_elem_of_further | done].
      * intros (t & [[= -> ->]|Hin]%elem_of_cons & Ht); [by left|].
        right. by exists t.
    + exists l. split; [done|]. split; [by constructor|].
      intros n. rewrite Hmem. split.
      * intros (t & Hin & Ht). exists t.
        split; [by apply list_elem_of_further | done].
      * intros (t & [[= -> ->]|Hin]%elem_of_cons & Ht).
        -- unfold declared in Ht. congruence.
        -- by exists t.
Qed.

Lemma start_tasks_members (w : World) :
  graph_inv w →
  ∃ l, start_tasks w = Ok l
       ∧ l `sublist_of` dict_keys (task_names (self w))
       ∧ ∀ n, n ∈ l ↔ ∃ t, registered w n t ∧ declared w t [].
Proof.
  intros Hinv.
  destruct (start_tasks_from_spec w (dict_items (task_names (self w))))
    as (l & Hl & Hsub & Hmem).
  { intros n t Hin%registered_elem; [|done].
    by apply (bound_has_deps w n). }
  exists l. split; [done|]. split; [done|].
  intros n. rewrite Hmem. split; intros (t & Hin & Ht); exists t;
    (split; [by apply registered_elem | done]).
Qed.

(** C5, as the code has it.  In every reachable world [start_tasks]
    returns, without repetition, exactly the names whose entry in
    [task_names], the [Task] registered last under the name, has an
    empty dependency list. *)
Theorem start_tasks_are_the_sources (w : World) :
  reachable w →
  ∃ l, start_tasks w = Ok l
       ∧ NoDup l
       ∧ ∀ n, n ∈ l ↔ ∃ t, registered w n t ∧ declared w t [].
Proof.
  intros Hinv%reachable_inv.
  destruct (start_tasks_members w Hinv) as (l & Hl & Hsub & Hmem).
  exists l. split; [done|]. split; [|done].
  eapply sublist_NoDup; [|exact Hsub]. by apply names_NoDup.
Qed.

Lemma source_tasks_from_spec (w : World) (items : list (string * ref)) :
  (∀ n t, (n, t) ∈ items → ∃ deps, declared w t deps) →
  ∃ S : gset string,
    source_tasks_from w items = Ok S
    ∧ ∀ n, n ∈ S ↔ ∃ n' t deps d,
               (n', t) ∈ items ∧ declared w t deps
               ∧ d ∈ deps ∧ name_of w d = n.
Proof.
  induction items as [|[n0 t0] items IH]; intros Hdecl.
  - exists ∅. split; [done|]. intros n. split; [by intros ?%elem_of_empty|].
    by intros (? & ? & ? & ? & ?%elem_of_nil & _).
  - destruct IH as (S & HS & Hmem).
    { intros n t Hin. apply (Hdecl n t). by apply list_elem_of_further. }
    destruct (Hdecl n0 t0) as (deps0 & Hdeps); [apply list_elem_of_here|].
    pose proof Hdeps as Hdeps'. unfold declared in Hdeps'.
    assert (Heq : source_tasks_from w ((n0, t0) :: items)
                  = Ok (list_to_set (name_of w <$> deps0) ∪ S)).
    { cbn [source_tasks_from]. unfold getitem.
      rewrite Hdeps'. cbn [bind]. by rewrite HS. }
    rewrite Heq. clear Heq.
    eexists. split; [done|].
    intros n. rewrite elem_of_union, elem_of_list_to_set, Hmem. split.
    + intros [(d & -> & Hd)%list_elem_of_fmap|(n' & t & deps & d & Hin & H')].
      * exists n0, t0, deps0, d. split; [apply list_elem_of_here | done].
      * exists n', t, deps, d. split; [by apply list_elem_of_further | done].
    + intros (n' & t & deps & d & [[= -> ->]|Hin]%elem_of_cons
              & Ht & Hd & Hn).
      * left. unfold declared in Ht. rewrite Hdeps' in Ht.
        injection Ht as ->. apply list_elem_of_fmap. by exists d.
      * right. by exists n', t, deps, d.
Qed.

Lemma end_tasks_members (w : World) :
  graph_inv w →
  ∃ S : gset string,
    end_tasks w = Ok (elements S)
    ∧ ∀ n, n ∈ S ↔ n ∈ dict_keys (task_names (self w))
                    ∧ ¬ dependency_name_of_bound_task w n.
Proof.
  intros Hinv.
  destruct (source_tasks_from_spec w (dict_items (task_names (self w))))
    as (S & HS & Hmem).
  { intros n t Hin%registered_elem; [|done].
    by apply (bound_has_deps w n). }
  unfold end_tasks. rewrite HS. cbn [bind]. eexists. split; [done|].
  intros n. rewrite elem_of_difference, elem_of_list_to_set, Hmem.
  unfold dependency_name_of_bound_task.
  split; intros [Hkey Hnot]; (split; [done|]);
    intros (n' & t & deps & d & Hin & H'); apply Hnot;
    exists n', t, deps, d; (split; [by apply registered_elem | done]).
Qed.

(** C6, as the code has it.  In every reachable world [end_tasks]
    returns, without repetition, exactly the keys of [task_names] that
    are not the name of a dependency listed for a [Task] that
    [task_names] holds. *)
Theorem end_tasks_are_names_minus_dependency_names (w : World) :
  reachable w →
  ∃ l, end_tasks w = Ok l
       ∧ NoDup l
       ∧ ∀ n, n ∈ l ↔ n ∈ dict_keys (task_names (self w))
                      ∧ ¬ dependency_name_of_bound_task w n.
Proof.
  intros Hinv%reachable_inv.
  destruct (end_tasks_members w Hinv) as (S & HS & Hmem).
  exists (elements S). split; [done|]. split; [apply NoDup_elements|].
  intros n. by rewrite elem_of_elements, Hmem.
Qed.

(** C10, as the code has it.  In every reachable world, a name whose
    entry in [task_names] has an empty dependency list and that is not
    the name of a dependency of any other [Task] that [task_names] holds
    is returned by [start_tasks] and by [end_tasks]. *)
Theorem isolated_task_is_source_and_sink
    (w : World) (n : string) (t : ref) :
  reachable w →
  registered w n t →
  declared w t [] →
  (∀ n' t' deps d,
     registered w n' t' → t' ≠ t → declared w t' deps → d ∈ deps →
     name_of w d ≠ n) →
  ∃ starts ends,
    start_tasks w = Ok starts ∧ end_tasks w = Ok ends
    ∧ n ∈ starts ∧ n ∈ ends.
Proof.
  intros Hinv%reachable_inv Hreg Hdecl Hother.
  destruct (start_tasks_members w Hinv) as (starts & Hs & _ & Hsm).
  destruct (end_tasks_members w Hinv) as (S & He & Hem).
  exists starts, (elements S). split; [done|]. split; [done|]. split.
  - apply Hsm. by exists t.
  - apply elem_of_elements, Hem. split.
    + apply dict_get_is_Some. by exists t.
    + intros (n' & t' & deps & d & Hreg' & Hdecl' & Hd & Hn).
      destruct (decide (t' = t)) as [->|Hne].
      * unfold declared in *. rewrite Hdecl in Hdecl'.
        injection Hdecl' as <-. by apply elem_of_nil in Hd.
      * by apply (Hother n' t' deps d).
Qed.

(** *** The two maps *)

Lemma last_registration (w : World) (t : ref) :
  graph_inv w →
  t ∈ dict_keys (task_deps (self w)) →
  ∃ before last deps after,
    task_deps (self w) = before ++ (last, deps) :: after
    ∧ name_of w last = name_of w t
    ∧ registered w (name_of w t) last
    ∧ ∀ u, u ∈ dict_keys after → name_of w u ≠ name_of w t.
Proof.
  intros Hinv Ht.
  assert (Hk : name_of w t ∈ dict_keys (name_entries w)).
  { apply list_elem_of_fmap in Ht as ([t' ds] & -> & Hin).
    apply list_elem_of_fmap. exists (name_of w t', t'). split; [done|].
    apply list_elem_of_fmap. by exists (t', ds). }
  apply dict_last_occurrence in Hk as (l1 & last & l2 & Hsplit & Hlast).
  unfold name_entries in Hsplit.
  apply fmap_app_inv in Hsplit as (before & rest & -> & Hrest & Hdeps).
  symmetry in Hrest.
  apply fmap_cons_inv in Hrest as ([last' deps] & after & [= Hn ->] & -> & ->).
  simpl in Hn. exists before, last', deps, after.
  split; [done|]. split; [done|]. split.
  - unfold registered. rewrite names_get by done.
    unfold name_entries. rewrite Hdeps, fmap_app, fmap_cons. simpl fst.
    rewrite <- Hn. by apply dict_get_rev_last.
  - intros u Hu Hname. apply Hlast.
    apply list_elem_of_fmap in Hu as ([u' ds] & -> & Hin).
    apply list_elem_of_fmap. exists (name_of w u', u'). split; [done|].
    apply list_elem_of_fmap. by exists (u', ds).
Qed.

(** C7, as the code has it.  In every reachable world [task_names] has
    one entry per name; an entry leads to a key of [task_deps] that
    carries the entry's name; and the name of every key of [task_deps]
    is bound in [task_names] to the [Task] registered last under that
    name, which need not be the key itself. *)
Theorem task_names_holds_last_registration (w : World) :
  reachable w →
  NoDup (dict_keys (task_names (self w)))
  ∧ (∀ n t, registered w n t →
            t ∈ dict_keys (task_deps (self w)) ∧ name_of w t = n)
  ∧ (∀ t, t ∈ dict_keys (task_deps (self w)) →
          ∃ before last deps after,
            task_deps (self w) = before ++ (last, deps) :: after
            ∧ name_of w last = name_of w t
            ∧ registered w (name_of w t) last
            ∧ ∀ u, u ∈ dict_keys after → name_of w u ≠ name_of w t).
Proof.
  intros Hinv%reachable_inv. split; [by apply names_NoDup|]. split.
  - intros n t. by apply bound_is_key.
  - intros t. by apply last_registration.
Qed.

Lemma NoDup_fmap_eq {A B} (f : A → B) (l : list A) (x y : A) :
  NoDup (f <$> l) → x ∈ l → y ∈ l → f x = f y → x = y.
Proof.
  induction l as [|a l IH]; [by intros _ ?%elem_of_nil|].
  rewrite fmap_cons. intros [Ha Hnd]%NoDup_cons.
  intros [->|Hx]%elem_of_cons [->|Hy]%elem_of_cons Hf; [done| | |by apply IH].
  - exfalso. apply Ha. rewrite Hf. by apply list_elem_of_fmap_2.
  - exfalso. apply Ha. rewrite <- Hf. by apply list_elem_of_fmap_2.
Qed.

(** X22.  As long as no name has been registered twice the two maps are
    in sync. *)
Lemma in_sync_when_names_differ (w : World) :
  reachable w →
  NoDup (name_of w <$> dict_keys (task_deps (self w))) →
  in_sync w.
Proof.
  intros Hinv%reachable_inv Hnd t Ht.
  destruct (last_registration w t Hinv Ht)
    as (before & last & deps & after & Hsplit & Hname & Hreg & _).
  assert (Hlast : last ∈ dict_keys (task_deps (self w))).
  { rewrite Hsplit. unfold dict_keys. rewrite fmap_app, fmap_cons.
    apply elem_of_app. right. apply list_elem_of_here. }
  pose proof (NoDup_fmap_eq _ _ _ _ Hnd Hlast Ht Hname) as ->.
  exact Hreg.
Qed.

(** C8.  When [add_task] registers a function under a name that is
    already bound to a [Task] [old]: the name becomes bound to the new
    [Task]; [task_deps] keeps all its entries, [old]'s among them, and
    gets one for the new [Task] at the end; no name is bound to [old]
    any more; and the other names keep their entries. *)
Theorem add_task_on_taken_name_shadows
    (w : World) (fn : PyFunction) (deps : list ref) (old : ref) :
  reachable w →
  registered w (fn_name fn) old →
  registered (add_task fn deps w).2 (fn_name fn) (add_task fn deps w).1
  ∧ (add_task fn deps w).1 ≠ old
  ∧ task_deps (self (add_task fn deps w).2)
    = task_deps (self w) ++ [((add_task fn deps w).1, deps)]
  ∧ (∃ old_deps, declared w old old_deps
                 ∧ declared (add_task fn deps w).2 old old_deps)
  ∧ name_of (add_task fn deps w).2 old = fn_name fn
  ∧ (∀ n, ¬ registered (add_task fn deps w).2 n old)
  ∧ dict_keys (task_names (self (add_task fn deps w).2))
    = dict_keys (task_names (self w))
  ∧ (∀ n, n ≠ fn_name fn →
          dict_get n (task_names (self (add_task fn deps w).2))
          = dict_get n (task_names (self w))).
Proof.
  intros Hinv%reachable_inv Hold.
  destruct (bound_is_key w _ _ Hinv Hold) as [Hkey Hname].
  assert (Halloc : allocated (heap w) old).
  { destruct Hinv as [Halloc _ _]. rewrite Forall_forall in Halloc.
    by apply Halloc. }
  assert (Hnew : (add_task fn deps w).1 = brk (heap w)) by done.
  assert (Hne : brk (heap w) ≠ old) by (unfold allocated in Halloc; lia).
  rewrite Hnew. unfold registered, declared.
  rewrite add_task_task_names, add_task_task_deps by done.
  split; [apply dict_get_set_eq|]. split; [done|]. split; [done|].
  split; [|split; [|split; [|split]]].
  - destruct (key_has_deps w old Hkey) as (old_deps & Hdeps).
    exists old_deps. split; [done|].
    by rewrite dict_get_app, Hdeps.
  - by rewrite add_task_name_of_old.
  - intros n Hn. destruct (decide (fn_name fn = n)) as [<-|Hdiff].
    + rewrite dict_get_set_eq in Hn. congruence.
    + rewrite dict_get_set_ne in Hn by done.
      apply (bound_is_key w n old Hinv) in Hn as [_ Hn]. congruence.
  - rewrite dict_keys_set. rewrite decide_True; [done|].
    apply dict_get_is_Some. by exists old.
  - intros n Hn. by apply dict_get_set_ne.
Qed.

(** *** The summary *)

Lemma summary_get_items (w : World) (n : string)
    (items : list (ref * list ref)) :
  (∀ t deps, (t, deps) ∈ items → declared w t deps) →
  dict_get n
    ((fun item : ref * list ref =>
        let '(task, deps) := item in (name_of w task, name_of w <$> deps))
       <$> items)
  = match dict_get n ((fun item : ref * list ref =>
                         (name_of w item.1, item.1)) <$> items) with
    | Some t => names_of w <$> dict_get t (task_deps (self w))
    | None => None
    end.
Proof.
  induction items as [|[t deps] items IH]; intros Hdecl; [done|].
  rewrite !fmap_cons. cbn [dict_get fst].
  destruct (decide (n = name_of w t)) as [_|_].
  - rewrite (Hdecl t deps); [done | apply list_elem_of_here].
  - apply IH. intros t' deps' Hin. apply Hdecl.
    by apply list_elem_of_further.
Qed.

Lemma summary_get (w : World) (n : string) :
  graph_inv w →
  dict_get n (summary w)
  = match dict_get n (task_names (self w)) with
    | Some t => names_of w <$> dict_get t (task_deps (self w))
    | None => None
    end.
Proof.
  intros Hinv. unfold summary, dict_items.
  rewrite dict_get_of_items, names_get by done.
  unfold name_entries. rewrite <- !fmap_reverse.
  apply summary_get_items. intros t deps Hin.
  rewrite elem_of_reverse in Hin.
  apply dict_elem_get; [|done]. by destruct Hinv.
Qed.

(** C9, as the code has it.  In every reachable world [summary] has
    exactly the keys of [task_names], in the same order and each once,
    and under each name it holds what [dependencies] returns for that
    name: the names of the dependencies declared for the [Task]
    registered last under it, in order. *)
Theorem summary_lists_dependencies_of_every_name (w : World) :
  reachable w →
  dict_keys (summary w) = dict_keys (task_names (self w))
  ∧ NoDup (dict_keys (summary w))
  ∧ ∀ n l, dict_get n (summary w) = Some l ↔ dependencies w n = Ok l.
Proof.
  intros Hinv%reachable_inv. split; [|split].
  - destruct Hinv as [_ _ Hnames]. rewrite Hnames. unfold summary.
    apply dict_keys_of_items_ext. unfold name_entries, dict_items.
    rewrite <- !list_fmap_compose. apply list_fmap_ext.
    by intros i [t deps] _.
  - apply dict_of_items_NoDup.
  - intros n l. rewrite summary_get by done.
    unfold dependencies, getitem.
    destruct (dict_get n (task_names (self w))) as [t|] eqn:Hn;
      [|by split].
    destruct (bound_has_deps w n t Hinv Hn) as (deps & Hdeps).
    unfold declared in Hdeps.
    cbn [bind]. rewrite Hdeps. cbn [bind fmap option_fmap option_map].
    rewrite list_comp_pure. unfold names_of. split; congruence.
Qed.

(** *** More about the codec *)

Lemma serialize_inv (v : value) (text : string) :
  serialize v = Ok text →
  ∃ raw, pickle_dumps v = Ok raw
         ∧ text = string_of_list_byte (Base64.b64encode raw).
Proof.
  unfold serialize. destruct (pickle_dumps v) as [raw|e]; [|done].
  cbn [bind]. rewrite decode_utf8_b64encode. intros [= <-]. by exists raw.
Qed.

(** X1.  [serialize] raises exactly when [pickle.dumps] raises, and then
    the same exception: turning the dump into text never fails. *)
Theorem serialize_raises_what_dumps_raises (v : value) (e : exn) :
  serialize v = Err e ↔ pickle_dumps v = Err e.
Proof.
  unfold serialize. destruct (pickle_dumps v) as [raw|e']; cbn [bind].
  - rewrite decode_utf8_b64encode. split; discriminate.
  - split; intros [= ->]; reflexivity.
Qed.

(** X2.  A text returned by [serialize] is made of the 64 characters of
    the base64 alphabet and the padding character only, and it has four
    characters for every three bytes of the dump, rounded up. *)
Theorem serialize_text_shape (v : value) (text : string) :
  serialize v = Ok text →
  ∃ raw, pickle_dumps v = Ok raw
    ∧ Forall (fun ch => ch ∈ Base64.alphabet ∨ ch = Base64.BASE64_PAD)
             (list_byte_of_string text)
    ∧ length (list_byte_of_string text) = 4 * ((length raw + 2) / 3).
Proof.
  intros (raw & Hraw & ->)%serialize_inv. exists raw. split; [done|].
  rewrite list_byte_of_string_of_list_byte. unfold Base64.b64encode. split.
  - apply Base64Facts.b2a_base64_chars.
  - apply Base64Facts.b2a_base64_length.
Qed.

(** X3.  Two supported values with the same encoding are equal. *)
Theorem serialize_injective (v1 v2 : value) (text : string) :
  picklable v1 → picklable v2 →
  serialize v1 = Ok text → serialize v2 = Ok text →
  v1 = v2.
Proof.
  intros (raw1 & Hd1 & Hl1) (raw2 & Hd2 & Hl2) H1 H2.
  destruct (codec_round_trip v1 raw1 Hd1 Hl1) as [Hs1 Hr1].
  destruct (codec_round_trip v2 raw2 Hd2 Hl2) as [Hs2 Hr2].
  rewrite H1 in Hs1. rewrite H2 in Hs2.
  injection Hs1 as Ht1. injection Hs2 as Ht2.
  rewrite <- Ht1 in Hr1. rewrite <- Ht2 in Hr2. congruence.
Qed.

(** *** Exceptions during [execute] *)

Lemma execute_wraps (w : World) (n : string) (fn : PyFunction)
    (args : list string) (kwargs : dict string string) :
  wraps w n fn → bindable kwargs →
  execute w n args kwargs = _fun fn args kwargs.
Proof.
  intros (t & Hname & Hobj) Hb. rewrite execute_bound by done.
  unfold getitem. rewrite Hname. cbn [bind]. by rewrite Hobj.
Qed.

Lemma kwargs_decoded (kwargs : dict string string) (kvs : dict string value) :
  NoDup (dict_keys kwargs) →
  Forall2 (fun ka kv => ka.1 = kv.1 ∧ deserialize ka.2 = Ok kv.2)
          kwargs kvs →
  (let! items :=
     list_comp (fun kv : string * string =>
                  let! v := deserialize kv.2 in Ok (kv.1, v))
               (dict_items kwargs) in
   Ok (dict_of_items items)) = Ok kvs.
Proof.
  intros Hnd Hkw.
  assert (Hitems :
    list_comp (fun kv : string * string =>
                 let! v := deserialize kv.2 in Ok (kv.1, v))
              (dict_items kwargs) = Ok kvs).
  { apply list_comp_ok. unfold dict_items.
    eapply Forall2_impl; [exact Hkw|]. intros [k a] [k' v] [Hk Hv].
    simpl in *. rewrite Hv. simpl. by rewrite Hk. }
  rewrite Hitems. cbn [bind].
  assert (Hkeys : dict_keys kvs = dict_keys kwargs).
  { clear -Hkw. induction Hkw as [|[k a] [k' v] l l' [Hk _] _ IH]; [done|].
    unfold dict_keys in *. rewrite !fmap_cons. simpl in Hk. by f_equal. }
  by rewrite dict_of_items_id by (by rewrite Hkeys).
Qed.

(** X4.  When a positional argument does not decode, [execute] raises the
    exception of the first such argument, whatever the function and the
    keyword arguments are, as long as no keyword is called [self] or
    [name]: the function is not called. *)
Theorem execute_raises_at_first_bad_argument
    (w : World) (n : string) (fn : PyFunction)
    (pre post : list string) (a : string) (kwargs : dict string string)
    (vs : list value) (e : exn) :
  wraps w n fn →
  bindable kwargs →
  Forall2 (fun a v => deserialize a = Ok v) pre vs →
  deserialize a = Err e →
  execute w n (pre ++ a :: post) kwargs = Err e.
Proof.
  intros Hw Hb Hpre Ha. rewrite (execute_wraps w n fn) by done.
  unfold _fun. by rewrite (list_comp_err _ _ _ _ _ _ Hpre Ha).
Qed.

(** X5.  When the positional arguments decode, no keyword is called
    [self] or [name], and a keyword argument does not decode, [execute]
    raises the exception of the first such keyword argument, and the
    function is not called. *)
Theorem execute_raises_at_first_bad_keyword
    (w : World) (n : string) (fn : PyFunction) (args : list string)
    (pre post : dict string string) (k a : string)
    (vs : list value) (kvs : dict string value) (e : exn) :
  wraps w n fn →
  bindable (pre ++ (k, a) :: post) →
  Forall2 (fun a v => deserialize a = Ok v) args vs →
  Forall2 (fun ka kv => ka.1 = kv.1 ∧ deserialize ka.2 = Ok kv.2) pre kvs →
  deserialize a = Err e →
  execute w n args (pre ++ (k, a) :: post) = Err e.
Proof.
  intros Hw Hb Hargs Hpre Ha. rewrite (execute_wraps w n fn) by done.
  unfold _fun. rewrite (list_comp_ok _ _ _ Hargs). cbn [bind].
  unfold dict_items.
  rewrite (list_comp_err _ pre (k, a) post kvs e); [done| |].
  - eapply Forall2_impl; [exact Hpre|]. intros [k1 a1] [k2 v2] [Hk Hv].
    simpl in *. rewrite Hv. simpl. by rewrite Hk.
  - simpl. by rewrite Ha.
Qed.

(** X6.  When no keyword is called [self] or [name], the arguments decode
    and the function raises, [execute] raises the same exception. *)
Theorem execute_raises_what_the_function_raises
    (w : World) (n : string) (fn : PyFunction)
    (args : list string) (kwargs : dict string string)
    (vs : list value) (kvs : dict string value) (e : exn) :
  wraps w n fn →
  bindable kwargs →
  Forall2 (fun a v => deserialize a = Ok v) args vs →
  NoDup (dict_keys kwargs) →
  Forall2 (fun ka kv => ka.1 = kv.1 ∧ deserialize ka.2 = Ok kv.2)
          kwargs kvs →
  fn_call fn vs kvs = Err e →
  execute w n args kwargs = Err e.
Proof.
  intros Hw Hb Hargs Hnd Hkw Hcall. rewrite (execute_wraps w n fn) by done.
  unfold _fun. rewrite (list_comp_ok _ _ _ Hargs). cbn [bind].
  rewrite (kwargs_decoded kwargs kvs Hnd Hkw). cbn [bind].
  by rewrite Hcall.
Qed.

(** X7.  When no keyword is called [self] or [name], the arguments decode
    and the function returns a value that [pickle.dumps] refuses,
    [execute] raises the exception of [pickle.dumps]. *)
Theorem execute_raises_on_unpicklable_result
    (w : World) (n : string) (fn : PyFunction)
    (args : list string) (kwargs : dict string string)
    (vs : list value) (kvs : dict string value) (r : value) (e : exn) :
  wraps w n fn →
  bindable kwargs →
  Forall2 (fun a v => deserialize a = Ok v) args vs →
  NoDup (dict_keys kwargs) →
  Forall2 (fun ka kv => ka.1 = kv.1 ∧ deserialize ka.2 = Ok kv.2)
          kwargs kvs →
  fn_call fn vs kvs = Ok r →
  pickle_dumps r = Err e →
  execute w n args kwargs = Err e.
Proof.
  intros Hw Hb Hargs Hnd Hkw Hcall Hdumps.
  rewrite (execute_wraps w n fn) by done.
  unfold _fun. rewrite (list_comp_ok _ _ _ Hargs). cbn [bind].
  rewrite (kwargs_decoded kwargs kvs Hnd Hkw). cbn [bind].
  rewrite Hcall. cbn [bind]. unfold serialize. by rewrite Hdumps.
Qed.

(** *** Dependencies are older than their task *)

Lemma declared_elem (w : World) (t : ref) (deps : list ref) :
  graph_inv w → (t, deps) ∈ task_deps (self w) ↔ declared w t deps.
Proof.
  intros [_ Hnd _]. unfold declared. split.
  - by apply dict_elem_get.
  - apply dict_get_Some_elem.
Qed.

Lemma declared_key (w : World) (t : ref) (deps : list ref) :
  declared w t deps → t ∈ dict_keys (task_deps (self w)).
Proof. intros Hd. apply dict_get_is_Some. by exists deps. Qed.

Lemma deps_before (w : World) :
  reachable w →
  ∀ t deps d, (t, deps) ∈ task_deps (self w) → d ∈ deps → d < t.
Proof.
  induction 1 as [h|w o _ IH|w fn deps0 Hw IH Halloc]; intros t deps d.
  - by intros ?%elem_of_nil.
  - apply IH.
  - rewrite add_task_task_deps by by apply reachable_inv.
    intros [Hin|Hin%list_elem_of_singleton]%elem_of_app Hd.
    + by apply (IH t deps).
    + injection Hin as -> ->. rewrite Forall_forall in Halloc.
      by apply Halloc.
Qed.

Lemma depends_on_lt (w : World) (d t : ref) :
  reachable w → depends_on w d t → d < t.
Proof.
  intros Hw (deps & Hdecl & Hd). apply (deps_before w Hw t deps d); [|done].
  by apply declared_elem; [apply reachable_inv|].
Qed.

Lemma depends_on_allocated (w : World) (d t : ref) :
  reachable w → depends_on w d t → allocated (heap w) d.
Proof.
  intros Hw Hdep. pose proof (depends_on_lt w d t Hw Hdep) as Hlt.
  destruct Hdep as (deps & Hdecl%declared_key & _).
  destruct (reachable_inv w Hw) as [Halloc _ _].
  rewrite Forall_forall in Halloc. apply Halloc in Hdecl.
  unfold allocated in *. lia.
Qed.

(** X8.  In every reachable world no [Task] depends on itself, directly
    or through other tasks: the dependencies that [task_deps] holds for a
    [Task] were all created before it. *)
Theorem no_dependency_cycle (w : World) (t : ref) :
  reachable w → ¬ tc (depends_on w) t t.
Proof.
  intros Hw Hcycle.
  assert (Hlt : ∀ x y, tc (depends_on w) x y → x < y).
  { induction 1 as [x y Hxy|x y z Hxy _ IH].
    - by apply (depends_on_lt w).
    - apply (depends_on_lt w) in Hxy; [lia | done]. }
  apply Hlt in Hcycle. lia.
Qed.

(** *** What [add_task] leaves alone *)

Lemma add_task_obj_old
    (w : World) (fn : PyFunction) (deps : list ref) (t : ref) :
  allocated (heap w) t → obj (heap (add_task fn deps w).2) t = obj (heap w) t.
Proof.
  unfold allocated, add_task. intros Ht. simpl.
  rewrite decide_False; [done | lia].
Qed.

Lemma key_allocated (w : World) (t : ref) :
  graph_inv w → t ∈ dict_keys (task_deps (self w)) → allocated (heap w) t.
Proof.
  intros [Halloc _ _] Ht. rewrite Forall_forall in Halloc. by apply Halloc.
Qed.

(** X9.  Registering a function leaves [execute] as it was for every
    other name. *)
Theorem add_task_keeps_execute_of_other_names
    (w : World) (fn : PyFunction) (deps : list ref)
    (n : string) (args : list string) (kwargs : dict string string) :
  reachable w →
  n ≠ fn_name fn →
  execute (add_task fn deps w).2 n args kwargs = execute w n args kwargs.
Proof.
  intros Hinv%reachable_inv Hn. unfold execute, getitem.
  rewrite add_task_task_names, dict_get_set_ne by done.
  destruct (dict_get n (task_names (self w))) as [t|] eqn:Ht; [|done].
  cbn [bind]. rewrite add_task_obj_old; [done|].
  apply key_allocated; [done|]. by apply (bound_is_key w n).
Qed.

(** X10.  Registering a function leaves [dependencies] as it was for
    every other name. *)
Theorem add_task_keeps_dependencies_of_other_names
    (w : World) (fn : PyFunction) (deps : list ref) (n : string) :
  reachable w →
  n ≠ fn_name fn →
  dependencies (add_task fn deps w).2 n = dependencies w n.
Proof.
  intros Hw Hn. pose proof (reachable_inv w Hw) as Hinv.
  unfold dependencies, getitem.
  rewrite add_task_task_names, dict_get_set_ne by done.
  destruct (dict_get n (task_names (self w))) as [t|] eqn:Ht; [|done].
  cbn [bind]. rewrite add_task_task_deps by done.
  destruct (bound_has_deps w n t Hinv Ht) as (ds & Hds).
  rewrite dict_get_app, Hds. cbn [bind]. rewrite !list_comp_pure. f_equal.
  apply list_fmap_ext. intros i d Hd%list_elem_of_lookup_2.
  apply add_task_name_of_old, (depends_on_allocated w d t Hw).
  by exists ds.
Qed.

(** X11.  In every reachable world [dependencies] returns for every name
    of the name map: the lookup of the task in [task_deps] never fails. *)
Theorem dependencies_of_registered_name (w : World) (n : string) (t : ref) :
  reachable w →
  registered w n t →
  ∃ deps, declared w t deps ∧ dependencies w n = Ok (names_of w deps).
Proof.
  intros Hinv%reachable_inv Hreg.
  destruct (bound_has_deps w n t Hinv Hreg) as (deps & Hdeps).
  exists deps. split; [done|]. unfold dependencies, getitem.
  unfold registered in Hreg. rewrite Hreg. cbn [bind]. rewrite Hdeps.
  cbn [bind]. by rewrite list_comp_pure.
Qed.

(** *** The exported graph *)

Lemma add_edge_endpoints_only (u v : string) (g : DiGraph) :
  endpoints_only g → endpoints_only (add_edge u v g).
Proof.
  intros Hg n. unfold add_edge. cbn [nodes edges].
  rewrite elem_of_union, (Hg n). split.
  - intros [Hn|(u' & v' & He & Hn)].
    + exists u, v. split; [apply elem_of_union_l; by apply elem_of_singleton|].
      set_solver.
    + exists u', v'. split; [by apply elem_of_union_r | done].
  - intros (u' & v' & [He%elem_of_singleton|He]%elem_of_union & Hn).
    + injection He as -> ->. left. set_solver.
    + right. by exists u', v'.
Qed.

Lemma add_deps_edges (f : ref → string) (v : string) (deps : list ref)
    (g : DiGraph) (e : string * string) :
  e ∈ edges (fold_left (fun (graph : DiGraph) (dep : ref) =>
                          add_edge (f dep) v graph) deps g)
  ↔ e ∈ edges g ∨ ∃ d, d ∈ deps ∧ e = (f d, v).
Proof.
  revert g. induction deps as [|d deps IH]; intros g; cbn [fold_left].
  - split; [by left|]. intros [?|(d & ?%elem_of_nil & _)]; done.
  - rewrite IH. unfold add_edge. cbn [edges].
    rewrite elem_of_union, elem_of_singleton. split.
    + intros [[->|He]|(d' & Hd' & ->)].
      * right. exists d. split; [apply list_elem_of_here | done].
      * by left.
      * right. exists d'. split; [by apply list_elem_of_further | done].
    + intros [He|(d' & [->|Hd']%elem_of_cons & ->)].
      * left. by right.
      * left. by left.
      * right. by exists d'.
Qed.

Lemma add_deps_endpoints_only (f : ref → string) (v : string)
    (deps : list ref) (g : DiGraph) :
  endpoints_only g →
  endpoints_only (fold_left (fun (graph : DiGraph) (dep : ref) =>
                               add_edge (f dep) v graph) deps g).
Proof.
  revert g. induction deps as [|d deps IH]; intros g Hg; cbn [fold_left].
  - done.
  - by apply IH, add_edge_endpoints_only.
Qed.

Lemma export_edges (w : World) (items : list (ref * list ref))
    (g : DiGraph) (e : string * string) :
  e ∈ edges (fold_left (export_step w) items g)
  ↔ e ∈ edges g
    ∨ ∃ t deps d, (t, deps) ∈ items ∧ d ∈ deps
                  ∧ e = (name_of w d, name_of w t).
Proof.
  revert g. induction items as [|[t deps] items IH]; intros g;
    cbn [fold_left].
  - split; [by left|]. intros [?|(? & ? & ? & ?%elem_of_nil & _)]; done.
  - rewrite IH. cbn [export_step]. rewrite add_deps_edges. split.
    + intros [[He|(d & Hd & ->)]|(t' & deps' & d & Hin & Hd & ->)].
      * by left.
      * right. exists t, deps, d. split; [apply list_elem_of_here | done].
      * right. exists t', deps', d.
        split; [by apply list_elem_of_further | done].
    + intros [He|(t' & deps' & d & [[= -> ->]|Hin]%elem_of_cons & Hd & ->)].
      * left. by left.
      * left. right. by exists d.
      * right. by exists t', deps', d.
Qed.

Lemma export_endpoints_only (w : World) (items : list (ref * list ref))
    (g : DiGraph) :
  endpoints_only g → endpoints_only (fold_left (export_step w) items g).
Proof.
  revert g. induction items as [|[t deps] items IH]; intros g Hg;
    cbn [fold_left]; [done|].
  apply IH. cbn [export_step]. by apply add_deps_endpoints_only.
Qed.

Lemma to_networkx_fold (w : World) :
  to_networkx w
  = fold_left (export_step w) (dict_items (task_deps (self w))) DiGraph_init.
Proof. reflexivity. Qed.

Lemma to_networkx_edge (w : World) (u v : string) :
  graph_inv w →
  (u, v) ∈ edges (to_networkx w)
  ↔ ∃ d t, depends_on w d t ∧ name_of w d = u ∧ name_of w t = v.
Proof.
  intros Hinv. rewrite to_networkx_fold, export_edges. cbn [edges]. split.
  - intros [?%elem_of_empty|(t & deps & d & Hin & Hd & [= -> ->])]; [done|].
    exists d, t. split; [|done]. exists deps. split; [|done].
    by apply declared_elem.
  - intros (d & t & (deps & Hdecl & Hd) & <- & <-). right.
    exists t, deps, d. split; [by apply declared_elem | done].
Qed.

(** X12.  In every reachable world the exported graph has an edge from
    [u] to [v] exactly when some key of [task_deps] named [v] has a
    dependency named [u] in its list. *)
Theorem to_networkx_edges_are_the_dependencies (w : World) (u v : string) :
  reachable w →
  (u, v) ∈ edges (to_networkx w)
  ↔ ∃ d t, depends_on w d t ∧ name_of w d = u ∧ name_of w t = v.
Proof. intros Hinv%reachable_inv. by apply to_networkx_edge. Qed.

(** X13.  In every reachable world a name is a node of the exported graph
    exactly when it is the name of a dependency or of a task that has a
    dependency: a task without dependencies on which nothing depends is
    not in the exported graph. *)
Theorem to_networkx_nodes_are_the_end_points (w : World) (n : string) :
  reachable w →
  n ∈ nodes (to_networkx w)
  ↔ ∃ d t, depends_on w d t ∧ (name_of w d = n ∨ name_of w t = n).
Proof.
  intros Hinv%reachable_inv.
  assert (Hends : endpoints_only (to_networkx w)).
  { rewrite to_networkx_fold. apply export_endpoints_only.
    intros m. cbn [nodes edges DiGraph_init]. split.
    - by intros ?%elem_of_empty.
    - by intros (? & ? & ?%elem_of_empty & _). }
  rewrite (Hends n). split.
  - intros (u & v & He & Hn).
    apply to_networkx_edge in He as (d & t & Hdep & <- & <-); [|done].
    exists d, t. split; [done|]. destruct Hn as [->| ->]; auto.
  - intros (d & t & Hdep & Hn).
    exists (name_of w d), (name_of w t). split.
    + apply to_networkx_edge; [done|]. by exists d, t.
    + destruct Hn as [<-| <-]; auto.
Qed.

(** X14.  While the two maps are in sync, [end_tasks] returns exactly the
    registered names without an outgoing edge in the exported graph. *)
Theorem end_tasks_have_no_outgoing_edge (w : World) :
  reachable w →
  in_sync w →
  ∃ l, end_tasks w = Ok l
       ∧ ∀ n, n ∈ l ↔ n ∈ dict_keys (task_names (self w))
                      ∧ ¬ ∃ v, (n, v) ∈ edges (to_networkx w).
Proof.
  intros Hinv%reachable_inv Hsync.
  destruct (end_tasks_members w Hinv) as (S & HS & Hmem).
  exists (elements S). split; [done|]. intros n.
  rewrite elem_of_elements, Hmem.
  assert (Hiff : dependency_name_of_bound_task w n
                 ↔ ∃ v, (n, v) ∈ edges (to_networkx w)).
  { split.
    - intros (n' & t & deps & d & _ & Hdecl & Hd & Hn).
      exists (name_of w t). apply to_networkx_edge; [done|].
      exists d, t. split; [by exists deps | done].
    - intros (v & He). apply to_networkx_edge in He
        as (d & t & (deps & Hdecl & Hd) & Hn & _); [|done].
      exists (name_of w t), t, deps, d. split; [|done].
      by apply Hsync, (declared_key w t deps). }
  by rewrite Hiff.
Qed.

(** X15.  While the two maps are in sync, [start_tasks] returns exactly
    the registered names without an incoming edge in the exported
    graph. *)
Theorem start_tasks_have_no_incoming_edge (w : World) :
  reachable w →
  in_sync w →
  ∃ l, start_tasks w = Ok l
       ∧ ∀ n, n ∈ l ↔ n ∈ dict_keys (task_names (self w))
                      ∧ ¬ ∃ u, (u, n) ∈ edges (to_networkx w).
Proof.
  intros Hinv%reachable_inv Hsync.
  destruct (start_tasks_members w Hinv) as (l & Hl & _ & Hmem).
  exists l. split; [done|]. intros n. rewrite Hmem. split.
  - intros (t & Hreg & Hdecl). split.
    + apply dict_get_is_Some. by exists t.
    + intros (u & He). apply to_networkx_edge in He
        as (d & t' & (deps & Hdecl' & Hd) & _ & Hn); [|done].
      pose proof (Hsync t' (declared_key w t' deps Hdecl')) as Hreg'.
      rewrite Hn in Hreg'. unfold registered in Hreg.
      rewrite Hreg in Hreg'. injection Hreg' as ->.
      unfold declared in *. rewrite Hdecl in Hdecl'.
      injection Hdecl' as <-. by apply elem_of_nil in Hd.
  - intros [(t & Hreg)%dict_get_is_Some Hno]. exists t. split; [done|].
    destruct (bound_has_deps w n t Hinv Hreg) as ([|d deps] & Hdeps);
      [done|].
    exfalso. apply Hno. exists (name_of w d).
    apply to_networkx_edge; [done|]. exists d, t. split.
    + exists (d :: deps). split; [done | apply list_elem_of_here].
    + split; [done|]. by apply (bound_is_key w n t).
Qed.

(** *** Graphs whose names are all different *)

Lemma in_sync_names_inj (w : World) (t1 t2 : ref) :
  in_sync w →
  t1 ∈ dict_keys (task_deps (self w)) →
  t2 ∈ dict_keys (task_deps (self w)) →
  name_of w t1 = name_of w t2 → t1 = t2.
Proof.
  intros Hsync H1%Hsync H2%Hsync Hn. rewrite Hn in H1. congruence.
Qed.

(** X16.  A graph with at least one task, in sync, and in which every
    dependency is itself a registered task has at least one start task
    and at least one end task. *)
Theorem graph_has_start_and_end_task (w : World) :
  reachable w →
  in_sync w →
  closed w →
  task_deps (self w) ≠ [] →
  ∃ starts ends,
    start_tasks w = Ok starts ∧ end_tasks w = Ok ends
    ∧ (∃ n, n ∈ starts) ∧ (∃ n, n ∈ ends).
Proof.
  intros Hw Hsync Hclosed Hne. pose proof (reachable_inv w Hw) as Hinv.
  destruct (start_tasks_members w Hinv) as (starts & Hs & _ & Hsm).
  destruct (end_tasks_members w Hinv) as (S & He & Hem).
  exists starts, (elements S). split; [done|]. split; [done|].
  assert (Hkeys : dict_keys (task_deps (self w)) ≠ []).
  { unfold dict_keys. by destruct (task_deps (self w)). }
  split.
  - destruct (list_min_elem _ Hkeys) as (t0 & Ht0 & Hmin).
    exists (name_of w t0). apply Hsm. exists t0. split; [by apply Hsync|].
    destruct (key_has_deps w t0 Ht0) as ([|d deps] & Hdeps); [done|].
    exfalso.
    assert (Hdep : depends_on w d t0).
    { exists (d :: deps). split; [done | apply list_elem_of_here]. }
    pose proof (depends_on_lt w d t0 Hw Hdep) as Hlt.
    apply Hclosed, Hmin in Hdep. lia.
  - destruct (list_max_elem _ Hkeys) as (t1 & Ht1 & Hmax).
    exists (name_of w t1). apply elem_of_elements, Hem. split.
    + apply dict_get_is_Some. exists t1. by apply Hsync.
    + intros (n' & t & deps & d & _ & Hdecl & Hd & Hn).
      assert (Hdep : depends_on w d t) by by exists deps.
      pose proof (depends_on_lt w d t Hw Hdep) as Hlt.
      pose proof (Hclosed d t Hdep) as Hd_key.
      apply (in_sync_names_inj w d t1 Hsync Hd_key Ht1) in Hn. subst d.
      apply declared_key, Hmax in Hdecl. lia.
Qed.

(** X17.  In every reachable world the names returned by [start_tasks]
    come in the order in which [task_names] holds them, the order in
    which the names were first registered. *)
Theorem start_tasks_in_registration_order (w : World) :
  reachable w →
  ∃ l, start_tasks w = Ok l
       ∧ l `sublist_of` dict_keys (task_names (self w)).
Proof.
  intros Hinv%reachable_inv.
  destruct (start_tasks_members w Hinv) as (l & Hl & Hsub & _).
  by exists l.
Qed.

(** X18.  In a reachable world in which all registered tasks have
    different names, [summary] has one entry per key of [task_deps], in
    the order of [task_deps]: the task's name with the names of its
    dependencies. *)
Theorem summary_follows_task_deps (w : World) :
  reachable w →
  NoDup (name_of w <$> dict_keys (task_deps (self w))) →
  summary w
  = (fun item : ref * list ref => (name_of w item.1, names_of w item.2))
      <$> task_deps (self w).
Proof.
  intros _ Hnd. unfold summary, dict_items.
  assert (Heq :
    ((fun item : ref * list ref =>
        let '(task, deps) := item in (name_of w task, name_of w <$> deps))
       <$> task_deps (self w))
    = (fun item : ref * list ref => (name_of w item.1, names_of w item.2))
        <$> task_deps (self w)).
  { apply list_fmap_ext. by intros i [t deps] _. }
  rewrite Heq. apply dict_of_items_id.
  unfold dict_keys in *. rewrite <- list_fmap_compose.
  rewrite <- list_fmap_compose in Hnd. exact Hnd.
Qed.

(** *** The printed graph *)

Lemma TaskGraph_str_lines (w : World) :
  TaskGraph_str w
  = String.concat (String (ascii_of_byte x0a) EmptyString)
      (str_line w <$> task_deps (self w)).
Proof. reflexivity. Qed.

(** X19.  After [add_task] the printed graph is the printed graph of
    before followed by one more line, for the new [Task]: its name and
    the names of its dependencies.  Earlier lines never change. *)
Theorem add_task_appends_a_line
    (w : World) (fn : PyFunction) (deps : list ref) :
  reachable w →
  Forall (allocated (heap w)) deps →
  TaskGraph_str (add_task fn deps w).2
  = match task_deps (self w) with
    | [] => ""
    | _ => TaskGraph_str w +:+ String (ascii_of_byte x0a) EmptyString
    end
    +:+ (fn_name fn +:+ " <- [" +:+
         String.concat ", " (names_of w deps) +:+ "]").
Proof.
  intros Hw Halloc. pose proof (reachable_inv w Hw) as Hinv.
  rewrite !TaskGraph_str_lines, add_task_task_deps by done.
  rewrite fmap_app, list_fmap_singleton, concat_snoc.
  assert (Hold : str_line (add_task fn deps w).2 <$> task_deps (self w)
                 = str_line w <$> task_deps (self w)).
  { apply list_fmap_ext. intros i [t ds] Hi%list_elem_of_lookup_2.
    apply declared_elem in Hi; [|done]. cbn [str_line].
    rewrite add_task_name_of_old
      by (by apply key_allocated, (declared_key w t ds)).
    assert (Hnames : name_of (add_task fn deps w).2 <$> ds
                     = name_of w <$> ds).
    { apply list_fmap_ext. intros j d Hd%list_elem_of_lookup_2.
      apply add_task_name_of_old, (depends_on_allocated w d t Hw).
      by exists ds. }
    by rewrite Hnames. }
  assert (Hnew : str_line (add_task fn deps w).2 (brk (heap w), deps)
                 = fn_name fn +:+ " <- [" +:+
                   String.concat ", " (names_of w deps) +:+ "]").
  { cbn [str_line]. rewrite add_task_name_of_new.
    assert (Hnames : name_of (add_task fn deps w).2 <$> deps
                     = names_of w deps).
    { unfold names_of. apply list_fmap_ext.
      intros j d Hd%list_elem_of_lookup_2.
      apply add_task_name_of_old. rewrite Forall_forall in Halloc.
      by apply Halloc. }
    by rewrite Hnames. }
  rewrite Hold, Hnew.
  destruct (task_deps (self w)) as [|item items]; [done|].
  rewrite fmap_cons. by rewrite string_app_assoc.
Qed.

End Properties.

(** ** The status node *)

Module SchedulerFacts.

Import Scheduler.

Example status_12 : status 12 = "Scheduler status 12: GOOD".
Proof. reflexivity. Qed.

Example log_line_quotes :
  String.get 12 (log_line "ab") = Some "034"%char
  ∧ String.get 15 (log_line "ab") = Some "034"%char
  ∧ String.length (log_line "ab") = 16%nat.
Proof. repeat split. Qed.

Lemma after_ticks_S (n : nat) :
  after_ticks (S n) = timer_callback (after_ticks n).
Proof. reflexivity. Qed.

(** X20.  After [n] firings of the timer the counter is [n], the messages
    published are the status texts for 0, 1, ..., [n - 1] in this order,
    and one line was logged for each of them. *)
Theorem after_ticks_state (n : nat) :
  i (after_ticks n) = N.of_nat n
  ∧ published (after_ticks n) = (fun k => status (N.of_nat k)) <$> seq 0 n
  ∧ logged (after_ticks n) = log_line <$> published (after_ticks n).
Proof.
  induction n as [|n (Hi & Hpub & Hlog)]; [done|].
  rewrite after_ticks_S. unfold timer_callback. cbn [i published logged].
  rewrite Hi, Hpub, Hlog. split; [lia|]. split.
  - rewrite seq_S, fmap_app. reflexivity.
  - rewrite fmap_app, Hpub. reflexivity.
Qed.

Lemma status_inj (a b : N) : status a = status b → a = b.
Proof.
  unfold status. intros Heq%(inj (String.app _)).
  by apply string_app_inj_r, (inj pretty) in Heq.
Qed.

(** X21.  No status text is published twice. *)
Theorem published_messages_differ (n : nat) :
  NoDup (published (after_ticks n)).
Proof.
  destruct (after_ticks_state n) as (_ & -> & _).
  apply NoDup_fmap_2_strong; [|apply NoDup_seq].
  intros a b _ _ Heq%status_inj. lia.
Qed.

End SchedulerFacts.

(** ** The properties on the small instance *)

Section Instances.

Import Mini.
Local Open Scope N_scope.

Example enc_5 : enc 5 = "gARLBS4=".
Proof. reflexivity. Qed.

Example scenario_start : start_tasks w2 = Ok ["add"].
Proof. reflexivity. Qed.

Example scenario_end : end_tasks w2 = Ok ["square"].
Proof. vm_compute. reflexivity. Qed.

Example scenario_dependencies : dependencies w2 "square" = Ok ["add"].
Proof. reflexivity. Qed.

Example scenario_execute_add :
  execute w2 "add" [enc 2; enc 3] [] = Ok (enc 5).
Proof. reflexivity. Qed.

Example scenario_execute_square :
  execute w2 "square" [enc 5] [] = Ok (enc 25)
  ∧ deserialize (enc 25) = Ok 25.
Proof. split; reflexivity. Qed.

Example scenario_summary :
  summary w2 = [("add", []); ("square", ["add"])].
Proof. reflexivity. Qed.

Example scenario_str :
  TaskGraph_str w2 = "add <- []
square <- [add]".
Proof. reflexivity. Qed.


Lemma reachable_w1 : reachable w1.
Proof.
  unfold w1, register. apply reachable_add_task; [|constructor].
  apply reachable_init.
Qed.

Lemma reachable_w2 : reachable w2.
Proof.
  unfold w2, register. apply reachable_add_task; [apply reachable_w1|].
  repeat constructor.
Qed.

Lemma reachable_w_twice : reachable w_twice.
Proof.
  unfold w_twice, register.
  apply reachable_add_task; [apply reachable_w1|]. repeat constructor.
Qed.

Lemma bindable_nil : bindable [].
Proof. split; apply not_elem_of_nil. Qed.

Lemma deserialize_serialize_witness :
  ∃ text, serialize 5%N = Ok text ∧ deserialize text = Ok 5%N.
Proof.
  apply deserialize_serialize.
  exists [x80; x04; x4b; x05; x2e]. split; reflexivity.
Defined.

Lemma execute_returns_encoded_result_witness :
  ∃ text, execute w2 "add" [enc 2; enc 3] [] = Ok text
          ∧ deserialize text = Ok 5%N.
Proof.
  apply (execute_returns_encoded_result w2 "add" add
           [enc 2; enc 3] [] [2%N; 3%N] [] 5%N).
  - exists 0%nat. split; reflexivity.
  - repeat constructor.
  - constructor.
  - apply bindable_nil.
  - constructor.
  - reflexivity.
  - exists [x80; x04; x4b; x05; x2e]. split; reflexivity.
Defined.

Lemma unknown_name_raises_KeyError_witness :
  dependencies w2 "missing" = Err (KeyError (KeyStr "missing"))
  ∧ execute w2 "missing" [enc 2] [("y", enc 3)]
    = Err (KeyError (KeyStr "missing")).
Proof.
  destruct (unknown_name_raises_KeyError w2 "missing"
              [enc 2] [("y", enc 3)]) as [Hdeps Hexec].
  - apply dict_get_None. reflexivity.
  - split; [exact Hdeps|]. apply Hexec.
    split; by intros [=]%list_elem_of_singleton.
Defined.

Lemma add_task_then_dependencies_witness :
  dependencies (add_task square [0%nat] w1).2 "square" = Ok ["add"].
Proof.
  apply (add_task_then_dependencies w1 square [0%nat]).
  repeat constructor.
Defined.

Lemma start_tasks_are_the_sources_witness :
  ∃ l, start_tasks w2 = Ok l
       ∧ NoDup l
       ∧ ∀ n, n ∈ l ↔ ∃ t, registered w2 n t ∧ declared w2 t [].
Proof. apply start_tasks_are_the_sources, reachable_w2. Defined.

Lemma end_tasks_are_names_minus_dependency_names_witness :
  ∃ l, end_tasks w2 = Ok l
       ∧ NoDup l
       ∧ ∀ n, n ∈ l ↔ n ∈ dict_keys (task_names (self w2))
                      ∧ ¬ dependency_name_of_bound_task w2 n.
Proof.
  apply end_tasks_are_names_minus_dependency_names, reachable_w2.
Defined.

Lemma isolated_task_is_source_and_sink_witness :
  ∃ starts ends,
    start_tasks w1 = Ok starts ∧ end_tasks w1 = Ok ends
    ∧ "add" ∈ starts ∧ "add" ∈ ends.
Proof.
  apply (isolated_task_is_source_and_sink w1 "add" 0%nat).
  - apply reachable_w1.
  - reflexivity.
  - reflexivity.
  - intros n' t' deps d Hreg Hne. exfalso. apply Hne.
    apply (bound_is_key w1 n' t' (reachable_inv w1 reachable_w1)) in Hreg
      as [Hkey _].
    by apply list_elem_of_singleton in Hkey.
Defined.

(** C7 fails after a name is registered twice: the first [Task] called
    [add] is still a key of [task_deps], and [task_names] holds the
    second one under that name. *)
Lemma in_sync_fails_after_second_registration :
  reachable w_twice ∧ ¬ in_sync w_twice.
Proof.
  split; [apply reachable_w_twice|]. intros Hsync.
  assert (Hkey : 0%nat ∈ dict_keys (task_deps (self w_twice)))
    by apply list_elem_of_here.
  apply Hsync in Hkey. vm_compute in Hkey. discriminate Hkey.
Qed.

Lemma task_names_holds_last_registration_witness :
  NoDup (dict_keys (task_names (self w_twice)))
  ∧ (∀ n t, registered w_twice n t →
            t ∈ dict_keys (task_deps (self w_twice)) ∧ name_of w_twice t = n)
  ∧ (∀ t, t ∈ dict_keys (task_deps (self w_twice)) →
          ∃ before last deps after,
            task_deps (self w_twice) = before ++ (last, deps) :: after
            ∧ name_of w_twice last = name_of w_twice t
            ∧ registered w_twice (name_of w_twice t) last
            ∧ ∀ u, u ∈ dict_keys after →
                   name_of w_twice u ≠ name_of w_twice t).
Proof.
  apply task_names_holds_last_registration, reachable_w_twice.
Defined.

Lemma add_task_on_taken_name_shadows_witness :
  registered w_twice "add" 1%nat
  ∧ (∀ n, ¬ registered w_twice n 0%nat)
  ∧ declared w_twice 0%nat [].
Proof.
  destruct (add_task_on_taken_name_shadows w1 add' [0%nat] 0%nat)
    as (Hnew & _ & _ & (old_deps & Hbefore & Hafter) & _ & Hghost & _).
  - apply reachable_w1.
  - reflexivity.
  - split; [exact Hnew|]. split; [exact Hghost|].
    injection Hbefore as <-. exact Hafter.
Defined.

Lemma summary_lists_dependencies_of_every_name_witness :
  dict_keys (summary w2) = dict_keys (task_names (self w2))
  ∧ NoDup (dict_keys (summary w2))
  ∧ ∀ n l, dict_get n (summary w2) = Some l ↔ dependencies w2 n = Ok l.
Proof.
  apply summary_lists_dependencies_of_every_name, reachable_w2.
Defined.

(** What the queries return once [add] has been registered twice. *)

Example twice_str :
  TaskGraph_str w_twice = "add <- []
add <- [add]".
Proof. reflexivity. Qed.

Example twice_summary : summary w_twice = [("add", ["add"])].
Proof. reflexivity. Qed.

Example twice_start_tasks : start_tasks w_twice = Ok [].
Proof. reflexivity. Qed.

Example twice_end_tasks : end_tasks w_twice = Ok [].
Proof. vm_compute. reflexivity. Qed.

(** *** The further properties on the small instance *)

Lemma in_sync_w2 : in_sync w2.
Proof.
  intros t Ht. change (t ∈ [0%nat; 1%nat]) in Ht.
  apply elem_of_cons in Ht as [->|Ht]; [reflexivity|].
  apply list_elem_of_singleton in Ht as ->. reflexivity.
Qed.

Lemma closed_w2 : closed w2.
Proof.
  intros d t (deps & Hdecl & Hd). change (d ∈ [0%nat; 1%nat]).
  unfold declared in Hdecl. destruct t as [|[|t]].
  - injection Hdecl as <-. by apply elem_of_nil in Hd.
  - injection Hdecl as <-. apply list_elem_of_singleton in Hd as ->.
    apply list_elem_of_here.
  - discriminate Hdecl.
Qed.

Lemma names_differ_w2 :
  NoDup (name_of w2 <$> dict_keys (task_deps (self w2))).
Proof.
  change (NoDup ["add"; "square"]).
  apply NoDup_cons. split; [|apply NoDup_singleton].
  by intros [=]%list_elem_of_singleton.
Qed.

Example export_w2 : elements (edges (to_networkx w2)) = [("add", "square")].
Proof. vm_compute. reflexivity. Qed.

Example export_twice : elements (edges (to_networkx w_twice)) = [("add", "add")].
Proof. vm_compute. reflexivity. Qed.

Lemma serialize_text_shape_witness :
  ∃ raw, pickle_dumps 5 = Ok raw
    ∧ Forall (fun ch => ch ∈ Base64.alphabet ∨ ch = Base64.BASE64_PAD)
             (list_byte_of_string "gARLBS4=")
    ∧ length (list_byte_of_string "gARLBS4=")
      = (4 * ((length raw + 2) / 3))%nat.
Proof. apply (serialize_text_shape 5 "gARLBS4="). reflexivity. Defined.

Lemma serialize_injective_witness : 5 = 5.
Proof.
  apply (serialize_injective 5 5 "gARLBS4=").
  - exists [x80; x04; x4b; x05; x2e]. split; reflexivity.
  - exists [x80; x04; x4b; x05; x2e]. split; reflexivity.
  - reflexivity.
  - reflexivity.
Defined.

Lemma wraps_w2_add : wraps w2 "add" add.
Proof. exists 0%nat. split; reflexivity. Qed.

Lemma wraps_w2_square : wraps w2 "square" square.
Proof. exists 1%nat. split; reflexivity. Qed.

Lemma execute_raises_at_first_bad_argument_witness :
  execute w2 "add" [enc 2; "A"] []
  = Err (BinasciiError
           "Invalid base64-encoded string: number of data characters (1) cannot be 1 more than a multiple of 4").
Proof.
  apply (execute_raises_at_first_bad_argument w2 "add" add
           [enc 2] [] "A" [] [2]).
  - apply wraps_w2_add.
  - apply bindable_nil.
  - repeat constructor.
  - reflexivity.
Defined.

Lemma execute_raises_at_first_bad_keyword_witness :
  execute w2 "add" [enc 2] [("y", "A")]
  = Err (BinasciiError
           "Invalid base64-encoded string: number of data characters (1) cannot be 1 more than a multiple of 4").
Proof.
  apply (execute_raises_at_first_bad_keyword w2 "add" add
           [enc 2] [] [] "y" "A" [2] []).
  - apply wraps_w2_add.
  - split; by intros [=]%list_elem_of_singleton.
  - repeat constructor.
  - constructor.
  - reflexivity.
Defined.

Lemma execute_raises_what_the_function_raises_witness :
  execute w2 "add" [enc 2] [] = Err (Raised "TypeError").
Proof.
  apply (execute_raises_what_the_function_raises w2 "add" add
           [enc 2] [] [2] []).
  - apply wraps_w2_add.
  - apply bindable_nil.
  - repeat constructor.
  - constructor.
  - constructor.
  - reflexivity.
Defined.

Lemma execute_raises_on_unpicklable_result_witness :
  execute MiniGen.wg "numbers" [] []
  = Err (TypeError "cannot pickle 'generator' object").
Proof.
  apply (execute_raises_on_unpicklable_result MiniGen.wg "numbers"
           MiniGen.numbers [] [] [] [] MiniGen.Generator).
  - exists 0%nat. split; reflexivity.
  - apply bindable_nil.
  - constructor.
  - constructor.
  - constructor.
  - reflexivity.
  - reflexivity.
Defined.

Lemma no_dependency_cycle_witness :
  ¬ tc (depends_on w_twice) 1%nat 1%nat.
Proof. apply no_dependency_cycle, reachable_w_twice. Defined.

Lemma add_task_keeps_execute_of_other_names_witness :
  execute (add_task square [0%nat] w1).2 "add" [enc 2; enc 3] []
  = execute w1 "add" [enc 2; enc 3] [].
Proof.
  apply add_task_keeps_execute_of_other_names; [apply reachable_w1 | done].
Defined.

Lemma add_task_keeps_dependencies_of_other_names_witness :
  dependencies (add_task square [0%nat] w1).2 "add" = dependencies w1 "add".
Proof.
  apply add_task_keeps_dependencies_of_other_names;
    [apply reachable_w1 | done].
Defined.

Lemma dependencies_of_registered_name_witness :
  ∃ deps, declared w2 1%nat deps
          ∧ dependencies w2 "square" = Ok (names_of w2 deps).
Proof.
  apply dependencies_of_registered_name; [apply reachable_w2 | reflexivity].
Defined.

Lemma to_networkx_edges_are_the_dependencies_witness :
  ("add", "square") ∈ edges (to_networkx w2)
  ↔ ∃ d t, depends_on w2 d t
           ∧ name_of w2 d = "add" ∧ name_of w2 t = "square".
Proof. apply to_networkx_edges_are_the_dependencies, reachable_w2. Defined.

Lemma to_networkx_nodes_are_the_end_points_witness :
  "add" ∈ nodes (to_networkx w2)
  ↔ ∃ d t, depends_on w2 d t
           ∧ (name_of w2 d = "add" ∨ name_of w2 t = "add").
Proof. apply to_networkx_nodes_are_the_end_points, reachable_w2. Defined.

Lemma end_tasks_have_no_outgoing_edge_witness :
  ∃ l, end_tasks w2 = Ok l
       ∧ ∀ n, n ∈ l ↔ n ∈ dict_keys (task_names (self w2))
                      ∧ ¬ ∃ v, (n, v) ∈ edges (to_networkx w2).
Proof.
  apply end_tasks_have_no_outgoing_edge; [apply reachable_w2 | apply in_sync_w2].
Defined.

Lemma start_tasks_have_no_incoming_edge_witness :
  ∃ l, start_tasks w2 = Ok l
       ∧ ∀ n, n ∈ l ↔ n ∈ dict_keys (task_names (self w2))
                      ∧ ¬ ∃ u, (u, n) ∈ edges (to_networkx w2).
Proof.
  apply start_tasks_have_no_incoming_edge;
    [apply reachable_w2 | apply in_sync_w2].
Defined.

Lemma in_sync_when_names_differ_witness : in_sync w2.
Proof.
  apply in_sync_when_names_differ; [apply reachable_w2 | apply names_differ_w2].
Defined.

Lemma graph_has_start_and_end_task_witness :
  ∃ starts ends,
    start_tasks w2 = Ok starts ∧ end_tasks w2 = Ok ends
    ∧ (∃ n, n ∈ starts) ∧ (∃ n, n ∈ ends).
Proof.
  apply graph_has_start_and_end_task.
  - apply reachable_w2.
  - apply in_sync_w2.
  - apply closed_w2.
  - discriminate.
Defined.

Lemma start_tasks_in_registration_order_witness :
  ∃ l, start_tasks w2 = Ok l
       ∧ l `sublist_of` dict_keys (task_names (self w2)).
Proof. apply start_tasks_in_registration_order, reachable_w2. Defined.

Lemma summary_follows_task_deps_witness :
  summary w2
  = (fun item : ref * list ref => (name_of w2 item.1, names_of w2 item.2))
      <$> task_deps (self w2).
Proof.
  apply summary_follows_task_deps; [apply reachable_w2 | apply names_differ_w2].
Defined.

Lemma add_task_appends_a_line_witness :
  TaskGraph_str (add_task square [0%nat] w1).2
  = "add <- []
square <- [add]".
Proof.
  apply (add_task_appends_a_line w1 square [0%nat]); [apply reachable_w1|].
  repeat constructor.
Defined.

(** *** Shadowed tasks and keywords that cannot be bound *)

Example enc_256 : enc 256 = "gASVBAAAAAAAAABNAAEu".
Proof. reflexivity. Qed.

Example enc_65536 : enc 65536 = "gASVBgAAAAAAAABKAAABAC4=".
Proof. reflexivity. Qed.

Example enc_2_31 : enc 2147483648 = "gASVCAAAAAAAAACKBQAAAIAALg==".
Proof. reflexivity. Qed.

Example enc_2_64_minus_1 :
  enc 18446744073709551615 = "gASVDAAAAAAAAACKCf//////////AC4=".
Proof. reflexivity. Qed.

Example round_trips :
  Forall (fun n => deserialize (enc n) = Ok n)
    [0; 255; 256; 65535; 65536; 2147483647; 2147483648;
     18446744073709551615].
Proof. repeat constructor. Qed.

Example execute_rejects_keyword_name :
  execute w2 "add" [] [("name", enc 5)]
  = Err (TypeError
           "TaskGraph.execute() got multiple values for argument 'name'").
Proof. reflexivity. Qed.

Example execute_rejects_first_reserved_keyword :
  execute w2 "missing" [] [("self", enc 1); ("name", enc 2)]
  = Err (TypeError
           "TaskGraph.execute() got multiple values for argument 'self'").
Proof. reflexivity. Qed.

(** C3 fails for a keyword called [name]: binding the call raises
    [TypeError] before the name is looked up. *)
Lemma unknown_name_with_keyword_name_raises_TypeError :
  ¬ unknown_name_always_raises_KeyError w2.
Proof.
  intros Hclaim.
  destruct (Hclaim "missing" [] [("name", enc 5)]) as [Hexec _].
  - apply dict_get_None. reflexivity.
  - discriminate Hexec.
Qed.

Lemma reachable_w_shadowed_source : reachable w_shadowed_source.
Proof.
  unfold w_shadowed_source, register.
  apply reachable_add_task; [|repeat constructor].
  apply reachable_add_task; [apply reachable_w1 | constructor].
Qed.

Lemma reachable_w_shadowed_edge : reachable w_shadowed_edge.
Proof.
  unfold w_shadowed_edge, register.
  apply reachable_add_task; [|constructor].
  apply reachable_add_task; [|repeat constructor].
  apply reachable_add_task; [apply reachable_init | constructor].
Qed.

(** C2 fails for a shadowed [Task]: the first [Task] called [add] wraps
    [add] and is still registered, but [execute] under the name [add]
    runs the second function, which raises on two arguments. *)
Lemma execute_runs_the_last_registration_only :
  reachable w_twice ∧ ¬ execute_runs_every_task w_twice.
Proof.
  split; [apply reachable_w_twice|]. intros Hclaim.
  destruct (Hclaim 0%nat "add" add [enc 2; enc 3] [] [2; 3] [] 5)
    as (text & Hexec & _).
  - apply list_elem_of_here.
  - reflexivity.
  - repeat constructor.
  - constructor.
  - apply bindable_nil.
  - constructor.
  - reflexivity.
  - exists [x80; x04; x4b; x05; x2e]. split; reflexivity.
  - discriminate Hexec.
Qed.

(** C5 fails for a shadowed [Task]: the first [Task] called [add] has an
    empty list, and [start_tasks] returns [x] only. *)
Lemma start_tasks_misses_shadowed_source :
  reachable w_shadowed_source
  ∧ ¬ start_tasks_lists_every_source w_shadowed_source.
Proof.
  split; [apply reachable_w_shadowed_source|]. intros (l & Hl & Hmem).
  assert (Hrun : start_tasks w_shadowed_source = Ok ["x"]) by reflexivity.
  rewrite Hrun in Hl. injection Hl as <-.
  assert (Hin : "add" ∈ ["x"]).
  { apply Hmem. exists 0%nat. split; [apply list_elem_of_here|].
    split; reflexivity. }
  by apply list_elem_of_singleton in Hin.
Qed.

(** C10 fails for the same [Task]: it has an empty list and its name is in
    no list, yet its name is not returned by [start_tasks]. *)
Lemma shadowed_isolated_task_is_no_start_task :
  reachable w_shadowed_source
  ∧ ¬ isolated_tasks_start_and_end w_shadowed_source.
Proof.
  split; [apply reachable_w_shadowed_source|]. intros Hclaim.
  destruct (Hclaim 0%nat) as (starts & ends & Hs & _ & Hin & _).
  - split; [reflexivity|]. intros d t' (deps & Hdecl & Hd) _.
    unfold declared in Hdecl. destruct t' as [|[|[|t']]].
    + injection Hdecl as <-. by apply elem_of_nil in Hd.
    + injection Hdecl as <-. by apply elem_of_nil in Hd.
    + injection Hdecl as <-. apply list_elem_of_singleton in Hd as ->.
      discriminate.
    + discriminate Hdecl.
  - assert (Hrun : start_tasks w_shadowed_source = Ok ["x"]) by reflexivity.
    rewrite Hrun in Hs. injection Hs as <-.
    change (name_of w_shadowed_source 0%nat) with "add" in Hin.
    by apply list_elem_of_singleton in Hin.
Qed.

(** C6 fails when a shadowed [Task] has a dependency: [x] is in the list
    of the first [Task] called [foo], and [end_tasks] returns it. *)
Lemma end_tasks_keeps_dependency_of_shadowed_task :
  reachable w_shadowed_edge
  ∧ ¬ end_tasks_excludes_every_dependency w_shadowed_edge.
Proof.
  split; [apply reachable_w_shadowed_edge|]. intros (l & Hl & Hmem).
  destruct (end_tasks_members w_shadowed_edge
              (reachable_inv _ reachable_w_shadowed_edge))
    as (S & HS & HSmem).
  rewrite HS in Hl. injection Hl as <-.
  assert (Hx : "x" ∈ elements S).
  { apply elem_of_elements, HSmem. split.
    - apply dict_get_is_Some. by exists 0%nat.
    - intros (n' & t & deps & d & Hreg & Hdecl & Hd & Hn).
      unfold registered in Hreg. unfold declared in Hdecl.
      apply dict_get_Some_elem in Hreg.
      change ((n', t) ∈ [("x", 0%nat); ("foo", 2%nat)]) in Hreg.
      apply elem_of_cons in Hreg as [[= -> ->]|Hreg].
      + injection Hdecl as <-. by apply elem_of_nil in Hd.
      + apply list_elem_of_singleton in Hreg as [= -> ->].
        injection Hdecl as <-. by apply elem_of_nil in Hd. }
  apply Hmem in Hx as [_ Hnot]. apply Hnot.
  exists 0%nat, 1%nat. split; [|reflexivity].
  exists [0%nat]. split; [reflexivity | apply list_elem_of_here].
Qed.

(** C9 fails for the same graph: the first [Task] called [foo] declares
    the dependency [x], and [summary] holds an empty list under [foo]
    and two entries for three Tasks. *)
Lemma summary_drops_shadowed_task :
  reachable w_shadowed_edge ∧ ¬ summary_dumps_every_task w_shadowed_edge.
Proof.
  split; [apply reachable_w_shadowed_edge|]. intros [Hlen _].
  discriminate Hlen.
Qed.

Example shadowed_edge_views :
  summary w_shadowed_edge = [("x", []); ("foo", [])]
  ∧ elements (edges (to_networkx w_shadowed_edge)) = [("x", "foo")]
  ∧ TaskGraph_str w_shadowed_edge = "x <- []
foo <- [x]
foo <- []".
Proof. split; [reflexivity|]. split; [vm_compute|]; reflexivity. Qed.

End Instances.
